(** * A fixed-size worker pool: interleaving model of [04_workerpool.cpp]

    The class [ThreadPool] owns a stop flag, a vector of worker threads, a
    FIFO queue of jobs, one mutex and one condition variable.  Its code is
    run by three kinds of threads: the thread that constructs and destroys
    the pool (the owner), the worker threads started by the constructor
    (each runs [worker_loop]) and the threads that call [enqueue] (the
    clients).  Every thread is modelled by a program counter that names the
    next statement of the source it will execute; one transition executes
    one statement.  A schedule (a list of actions) picks which thread moves
    next, so every interleaving of the statements is covered.

    The mutex and the condition variable are taken with their standard
    meaning: a mutex has at most one holder and is acquired only when free;
    [cv.wait(lock, pred)] is [while (!pred()) wait(lock)], where [wait]
    releases the mutex, blocks, may wake without a notification, and
    re-acquires the mutex before it returns. *)

From stdpp Require Import base list.
From Stdlib Require Import ZArith Lia.

Local Open Scope Z_scope.

(** ** Data *)

(** A job is a [std::function<void()>]; the pool never looks inside it, so a
    job is an opaque identity. *)
Definition Job := nat.

Inductive Tid :=
| TOwner
| TWorker (i : nat)
| TClient (c : nat).

#[export] Instance Tid_eq_dec : EqDecision Tid.
Proof. solve_decision. Defined.

(** Control points of [worker_loop] (lines 30-57). *)
Inductive WorkerPc :=
| WLock                (* line 38: about to construct the unique_lock *)
| WPred                (* lines 41-42: holds [mu], tests the wait predicate *)
| WWait                (* inside [cv.wait], blocked, [mu] released *)
| WRelock              (* inside [cv.wait], unblocked, re-acquiring [mu] *)
| WCheck               (* line 44: holds [mu], tests [stop && jobs.empty()] *)
| WFetch               (* lines 48-49: holds [mu], front then pop *)
| WUnlock (job : Job)  (* line 52: holds [mu] and the fetched job *)
| WCall (job : Job)    (* line 55: about to call the job *)
| WInJob (job : Job)   (* inside the job *)
| WStopped.            (* line 45: returned *)

#[export] Instance WorkerPc_eq_dec : EqDecision WorkerPc.
Proof. solve_decision. Defined.

(** Control points of the owner: constructor (lines 63-71), then the
    lifetime of the object, then the destructor (lines 92-108). *)
Inductive OwnerPc :=
| OCtor (numOfWorkers i : Z)  (* line 65: loop test with counter [i] *)
| OLive                       (* constructed, destructor not entered *)
| ODtorLock                   (* line 98: about to take the lock_guard *)
| ODtorStop                   (* line 99 *)
| ODtorUnlock                 (* line 100: end of the scope *)
| ODtorNotify                 (* line 103 *)
| ODtorJoin (k : nat)         (* lines 105-107: at element [k] of [workers] *)
| ODone.                      (* destructor returned *)

(** Control points of a client inside [enqueue] (lines 73-90). *)
Inductive ClientPc :=
| CIdle                (* not inside [enqueue] *)
| CLock (job : Job)    (* line 82 *)
| CPush (job : Job)    (* line 85 *)
| CUnlock              (* line 86: end of the scope *)
| CNotify.             (* line 89 *)

(** The fields of [ThreadPool], with the control point of every thread.
    The threads blocked on [cv] are the workers at [WWait]. *)
Record State := mkState {
  stop : bool;
  workers : list WorkerPc;
  jobs : list Job;
  mu : option Tid;
  owner : OwnerPc;
  clients : list ClientPc
}.

Definition set_stop (b : bool) (s : State) : State :=
  mkState b (workers s) (jobs s) (mu s) (owner s) (clients s).
Definition set_workers (ws : list WorkerPc) (s : State) : State :=
  mkState (stop s) ws (jobs s) (mu s) (owner s) (clients s).
Definition set_jobs (q : list Job) (s : State) : State :=
  mkState (stop s) (workers s) q (mu s) (owner s) (clients s).
Definition set_mu (m : option Tid) (s : State) : State :=
  mkState (stop s) (workers s) (jobs s) m (owner s) (clients s).
Definition set_owner (o : OwnerPc) (s : State) : State :=
  mkState (stop s) (workers s) (jobs s) (mu s) o (clients s).
Definition set_clients (cs : list ClientPc) (s : State) : State :=
  mkState (stop s) (workers s) (jobs s) (mu s) (owner s) cs.

Definition set_worker (i : nat) (pc : WorkerPc) (s : State) : State :=
  set_workers (<[i:=pc]> (workers s)) s.
Definition set_client (c : nat) (pc : ClientPc) (s : State) : State :=
  set_clients (<[c:=pc]> (clients s)) s.

(** What a run can observe: one event per executed statement. *)
Inductive Event :=
| EvSpawn (i : nat)                      (* line 68 *)
| EvCtorReturn                           (* line 71 *)
| EvAcquire (t : Tid)
| EvRelease (t : Tid)
| EvPred (i : nat) (b : bool)            (* lines 41-42; [false] blocks *)
| EvSpurious (i : nat)
| EvCheck (i : nat)                      (* line 44 found false *)
| EvExit (i : nat)                       (* line 45 *)
| EvPop (i : nat) (job : Job)            (* lines 48-49 *)
| EvStart (i : nat) (job : Job)          (* line 55, call *)
| EvFinish (i : nat) (job : Job)         (* line 55, return *)
| EvCall (c : nat) (job : Job)           (* line 73 *)
| EvPush (c : nat) (job : Job)           (* line 85 *)
| EvNotifyOne (c : nat) (w : option nat) (* line 89 *)
| EvDtorBegin                            (* line 92 *)
| EvSetStop                              (* line 99 *)
| EvNotifyAll                            (* line 103 *)
| EvJoin (k : nat)                       (* line 107 *)
| EvDtorEnd.                             (* line 108 *)

(** Who moves next. *)
Inductive Action :=
| AOwner                     (* next statement of the owner *)
| AWorker (i : nat)          (* next statement of worker [i] *)
| ASpurious (i : nat)        (* worker [i] wakes without a notification *)
| ACall (c : nat) (job : Job) (* client [c] calls [enqueue(job)] *)
| AClient (c : nat) (pick : nat).
  (* next statement of client [c]; [pick] selects the thread that
     [notify_one] unblocks *)

Inductive outcome :=
| Next (e : Event) (s : State)
| Disabled     (* the thread is blocked or has nothing to execute *)
| Undefined.   (* undefined behaviour: [front]/[pop] on an empty queue *)

(** ** The condition variable *)

Definition is_waiting (pc : WorkerPc) : bool :=
  match pc with WWait => true | _ => false end.

Fixpoint waiters_from (k : nat) (ws : list WorkerPc) : list nat :=
  match ws with
  | [] => []
  | pc :: ws' =>
      if is_waiting pc then k :: waiters_from (S k) ws'
      else waiters_from (S k) ws'
  end.

Definition waiters (ws : list WorkerPc) : list nat := waiters_from 0 ws.

(** [notify_one]: unblocks one of the blocked threads, if there is one. *)
Definition notify_target (ws : list WorkerPc) (pick : nat) : option nat :=
  match waiters ws !! pick with
  | Some w => Some w
  | None => head (waiters ws)
  end.

Definition notify_one (ws : list WorkerPc) (pick : nat) : list WorkerPc :=
  match notify_target ws pick with
  | Some w => <[w:=WRelock]> ws
  | None => ws
  end.

(** [notify_all]: unblocks every blocked thread. *)
Definition wake (pc : WorkerPc) : WorkerPc :=
  if is_waiting pc then WRelock else pc.

Definition notify_all (ws : list WorkerPc) : list WorkerPc := wake <$> ws.

(** ** [worker_loop] *)

Definition is_empty (q : list Job) : bool :=
  match q with [] => true | _ => false end.

(** The lambda of lines 41-42. *)
Definition wake_pred (s : State) : bool := stop s || negb (is_empty (jobs s)).

(** The test of line 44. *)
Definition exit_test (s : State) : bool := stop s && is_empty (jobs s).

(** One statement of [worker_loop].  A job is run in two transitions, its
    call and its return, so that other threads move while it runs; a job
    that does not return leaves its worker at [WInJob]. *)
Definition worker_step (i : nat) (s : State) : outcome :=
  match workers s !! i with
  | None => Disabled
  | Some WLock | Some WRelock => (* line 38; re-acquisition inside cv.wait *)
      match mu s with
      | None => Next (EvAcquire (TWorker i))
                     (set_worker i WPred (set_mu (Some (TWorker i)) s))
      | Some _ => Disabled
      end
  | Some WPred => (* lines 41-42: while (!pred()) wait(lock) *)
      if wake_pred s then Next (EvPred i true) (set_worker i WCheck s)
      else Next (EvPred i false) (set_worker i WWait (set_mu None s))
  | Some WWait => Disabled
  | Some WCheck => (* lines 44-45; returning destroys the unique_lock *)
      if exit_test s then Next (EvExit i) (set_worker i WStopped (set_mu None s))
      else Next (EvCheck i) (set_worker i WFetch s)
  | Some WFetch => (* lines 48-49 *)
      match jobs s with
      | [] => Undefined
      | job :: rest => Next (EvPop i job) (set_worker i (WUnlock job) (set_jobs rest s))
      end
  | Some (WUnlock job) => (* line 52 *)
      Next (EvRelease (TWorker i)) (set_worker i (WCall job) (set_mu None s))
  | Some (WCall job) => (* line 55: the call *)
      Next (EvStart i job) (set_worker i (WInJob job) s)
  | Some (WInJob job) => (* line 55: the return, then line 33 *)
      Next (EvFinish i job) (set_worker i WLock s)
  | Some WStopped => Disabled
  end.

(** A blocked worker may wake without a notification. *)
Definition spurious_step (i : nat) (s : State) : outcome :=
  match workers s !! i with
  | Some WWait => Next (EvSpurious i) (set_worker i WRelock s)
  | _ => Disabled
  end.

(** ** Constructor and destructor *)

(** The counter [i] of line 65 is an [int] that stays at most
    [numOfWorkers], so [i++] never overflows and the integers of Rocq model
    it exactly.  Every thread of the vector is joinable when the destructor
    reaches it (none is joined, detached or moved before), so the test of
    line 106 is true and [join] blocks until the worker has returned. *)
Definition owner_step (s : State) : outcome :=
  match owner s with
  | OCtor n i =>
      if i <? n
      then (* lines 68-69: emplace_back a thread that runs worker_loop *)
        Next (EvSpawn (length (workers s)))
             (set_owner (OCtor n (i + 1)) (set_workers (workers s ++ [WLock]) s))
      else (* line 71 *)
        Next EvCtorReturn (set_owner OLive s)
  | OLive => (* the object goes out of scope: line 92 *)
      Next EvDtorBegin (set_owner ODtorLock s)
  | ODtorLock => (* line 98 *)
      match mu s with
      | None => Next (EvAcquire TOwner) (set_owner ODtorStop (set_mu (Some TOwner) s))
      | Some _ => Disabled
      end
  | ODtorStop => (* line 99 *)
      Next EvSetStop (set_owner ODtorUnlock (set_stop true s))
  | ODtorUnlock => (* line 100: the lock_guard is destroyed *)
      Next (EvRelease TOwner) (set_owner ODtorNotify (set_mu None s))
  | ODtorNotify => (* line 103 *)
      Next EvNotifyAll
           (set_owner (ODtorJoin 0) (set_workers (notify_all (workers s)) s))
  | ODtorJoin k => (* lines 105-107 *)
      match workers s !! k with
      | None => Next EvDtorEnd (set_owner ODone s)
      | Some WStopped => Next (EvJoin k) (set_owner (ODtorJoin (S k)) s)
      | Some _ => Disabled
      end
  | ODone => Disabled
  end.

(** The pool can be used from the return of the constructor to the return
    of the destructor. *)
Definition alive (o : OwnerPc) : bool :=
  match o with
  | OCtor _ _ | ODone => false
  | _ => true
  end.

(** ** [enqueue] *)

Definition call_step (c : nat) (job : Job) (s : State) : outcome :=
  match clients s !! c with
  | Some CIdle =>
      if alive (owner s) then Next (EvCall c job) (set_client c (CLock job) s)
      else Disabled
  | _ => Disabled
  end.

Definition client_step (c pick : nat) (s : State) : outcome :=
  match clients s !! c with
  | None | Some CIdle => Disabled
  | Some (CLock job) => (* line 82 *)
      match mu s with
      | None => Next (EvAcquire (TClient c))
                     (set_client c (CPush job) (set_mu (Some (TClient c)) s))
      | Some _ => Disabled
      end
  | Some (CPush job) => (* line 85 *)
      Next (EvPush c job) (set_client c CUnlock (set_jobs (jobs s ++ [job]) s))
  | Some CUnlock => (* line 86: the lock_guard is destroyed *)
      Next (EvRelease (TClient c)) (set_client c CNotify (set_mu None s))
  | Some CNotify => (* line 89 *)
      Next (EvNotifyOne c (notify_target (workers s) pick))
           (set_client c CIdle (set_workers (notify_one (workers s) pick) s))
  end.

(** ** Runs *)

Definition step (s : State) (a : Action) : outcome :=
  match a with
  | AOwner => owner_step s
  | AWorker i => worker_step i s
  | ASpurious i => spurious_step i s
  | ACall c job => call_step c job s
  | AClient c pick => client_step c pick s
  end.

(** [ThreadPool pool(numOfWorkers)] is entered with the members
    default-initialised and [stop(false)] done; [nclients] threads may call
    [enqueue]. *)
Definition init (numOfWorkers : Z) (nclients : nat) : State :=
  mkState false [] [] None (OCtor numOfWorkers 0) (replicate nclients CIdle).

Inductive result :=
| Done (s : State) (tr : list Event)
| Stuck        (* the schedule asks a blocked thread to move *)
| Crash.       (* undefined behaviour was reached *)

Fixpoint run_from (sched : list Action) (s : State) (tr : list Event) : result :=
  match sched with
  | [] => Done s tr
  | a :: sched' =>
      match step s a with
      | Next e s' => run_from sched' s' (tr ++ [e])
      | Disabled => Stuck
      | Undefined => Crash
      end
  end.

Definition run (numOfWorkers : Z) (nclients : nat) (sched : list Action) : result :=
  run_from sched (init numOfWorkers nclients) [].

(** ** Observations on a trace *)

Definition ev_push (e : Event) : option (nat * Job) :=
  match e with EvPush c job => Some (c, job) | _ => None end.
Definition ev_call (e : Event) : option (nat * Job) :=
  match e with EvCall c job => Some (c, job) | _ => None end.
Definition ev_pop (e : Event) : option (nat * Job) :=
  match e with EvPop i job => Some (i, job) | _ => None end.
Definition ev_start (e : Event) : option (nat * Job) :=
  match e with EvStart i job => Some (i, job) | _ => None end.
Definition ev_finish (e : Event) : option (nat * Job) :=
  match e with EvFinish i job => Some (i, job) | _ => None end.

(** Jobs pushed on the queue, with the pushing client, in order. *)
Definition pushes (tr : list Event) : list (nat * Job) := omap ev_push tr.
(** Calls of [enqueue], with the calling client, in order. *)
Definition calls (tr : list Event) : list (nat * Job) := omap ev_call tr.
(** Jobs removed from the queue, with the removing worker, in order. *)
Definition pops (tr : list Event) : list (nat * Job) := omap ev_pop tr.
(** Jobs whose execution began, with the executing worker, in order. *)
Definition starts (tr : list Event) : list (nat * Job) := omap ev_start tr.
(** Jobs whose execution completed, with the executing worker, in order. *)
Definition finishes (tr : list Event) : list (nat * Job) := omap ev_finish tr.

Definition is_set_stop (e : Event) : bool :=
  match e with EvSetStop => true | _ => false end.

Definition is_dtor_begin (e : Event) : bool :=
  match e with EvDtorBegin => true | _ => false end.

(** The part of a trace that precedes the first event satisfying [p]. *)
Fixpoint before (p : Event → bool) (tr : list Event) : list Event :=
  match tr with
  | [] => []
  | e :: tr' => if p e then [] else e :: before p tr'
  end.

(** Before the assignment [stop = true] of line 99; before the destructor
    is entered. *)
Definition before_stop (tr : list Event) : list Event := before is_set_stop tr.
Definition before_shutdown (tr : list Event) : list Event := before is_dtor_begin tr.

Definition has_stop (tr : list Event) : bool := existsb is_set_stop tr.
Definition has_begin (tr : list Event) : bool := existsb is_dtor_begin tr.

(** The events of one client / the owner. *)
Definition by_client (c : nat) (l : list (nat * Job)) : list Job :=
  omap (λ p, if (p.1 =? c)%nat then Some p.2 else None) l.

Definition is_owner_event (e : Event) : bool :=
  match e with
  | EvSpawn _ | EvCtorReturn | EvAcquire TOwner | EvRelease TOwner
  | EvDtorBegin | EvSetStop | EvNotifyAll | EvJoin _ | EvDtorEnd => true
  | _ => false
  end.

Definition owner_events (tr : list Event) : list Event :=
  omap (λ e, if is_owner_event e then Some e else None) tr.

(** The events of the owner up to each of its control points, for a pool
    constructed with [n]. *)
Definition ctor_events (n : Z) : list Event :=
  (EvSpawn <$> seq 0 (Z.to_nat n)) ++ [EvCtorReturn].
Definition dtor_events : list Event :=
  [EvDtorBegin; EvAcquire TOwner; EvSetStop; EvRelease TOwner; EvNotifyAll].

Definition expected_events (n : Z) (pc : OwnerPc) : list Event :=
  match pc with
  | OCtor _ i => EvSpawn <$> seq 0 (Z.to_nat i)
  | OLive => ctor_events n
  | ODtorLock => ctor_events n ++ take 1 dtor_events
  | ODtorStop => ctor_events n ++ take 2 dtor_events
  | ODtorUnlock => ctor_events n ++ take 3 dtor_events
  | ODtorNotify => ctor_events n ++ take 4 dtor_events
  | ODtorJoin k => ctor_events n ++ dtor_events ++ (EvJoin <$> seq 0 k)
  | ODone =>
      ctor_events n ++ dtor_events ++ (EvJoin <$> seq 0 (Z.to_nat n)) ++ [EvDtorEnd]
  end.

(** Control points of the owner after the assignment of line 99, and the
    workers it has joined. *)
Definition stop_written (pc : OwnerPc) : bool :=
  match pc with
  | ODtorUnlock | ODtorNotify | ODtorJoin _ | ODone => true
  | _ => false
  end.

Definition began (pc : OwnerPc) : bool :=
  match pc with
  | OCtor _ _ | OLive => false
  | _ => true
  end.

Definition joined (pc : OwnerPc) (i : nat) : bool :=
  match pc with
  | ODtorJoin k => (i <? k)%nat
  | ODone => true
  | _ => false
  end.

(** Jobs a worker has removed and not yet begun, begun and not yet
    completed. *)
Definition held_job (pc : WorkerPc) : option Job :=
  match pc with WUnlock job | WCall job => Some job | _ => None end.
Definition running_job (pc : WorkerPc) : option Job :=
  match pc with WInJob job => Some job | _ => None end.

Fixpoint tagged_from (f : WorkerPc → option Job) (k : nat) (ws : list WorkerPc)
  : list (nat * Job) :=
  match ws with
  | [] => []
  | pc :: ws' =>
      match f pc with
      | Some job => (k, job) :: tagged_from f (S k) ws'
      | None => tagged_from f (S k) ws'
      end
  end.

Definition holding (ws : list WorkerPc) : list (nat * Job) := tagged_from held_job 0 ws.
Definition running (ws : list WorkerPc) : list (nat * Job) := tagged_from running_job 0 ws.

(** Control points at which a thread owns [mu]. *)
Definition worker_holds (pc : WorkerPc) : bool :=
  match pc with WPred | WCheck | WFetch | WUnlock _ => true | _ => false end.
Definition client_holds (pc : ClientPc) : bool :=
  match pc with CPush _ | CUnlock => true | _ => false end.
Definition owner_holds (pc : OwnerPc) : bool :=
  match pc with ODtorStop | ODtorUnlock => true | _ => false end.

(** Inside [cv.wait]: the Waiting state of a worker. *)
Definition in_wait (pc : WorkerPc) : bool :=
  match pc with WPred | WWait | WRelock => true | _ => false end.

(** The job of a call of [enqueue] that has not pushed it yet. *)
Definition pending (pc : option ClientPc) : list Job :=
  match pc with
  | Some (CLock job) | Some (CPush job) => [job]
  | _ => []
  end.

Definition all_stopped (ws : list WorkerPc) : Prop :=
  ∀ i pc, ws !! i = Some pc → pc = WStopped.

(** The Waiting state of worker [i]: inside [cv.wait] (lines 41-42). *)
Definition waiting_at (s : State) (i : nat) : Prop :=
  ∃ pc, workers s !! i = Some pc ∧ in_wait pc = true.

(** ** Invariants of the reachable states *)

(** A thread at a control point inside a critical section holds [mu]. *)
Record LockInv (s : State) : Prop := {
  lock_worker : ∀ i pc, workers s !! i = Some pc → worker_holds pc = true →
                        mu s = Some (TWorker i);
  lock_client : ∀ c pc, clients s !! c = Some pc → client_holds pc = true →
                        mu s = Some (TClient c);
  lock_owner : owner_holds (owner s) = true → mu s = Some TOwner
}.

(** Conversely, the holder of [mu] is at such a control point. *)
Definition HolderInv (s : State) : Prop :=
  match mu s with
  | None => True
  | Some TOwner => owner_holds (owner s) = true
  | Some (TWorker i) => ∃ pc, workers s !! i = Some pc ∧ worker_holds pc = true
  | Some (TClient c) => ∃ pc, clients s !! c = Some pc ∧ client_holds pc = true
  end.

(** At line 44 the wait predicate holds; at line 48 the queue has a head. *)
Record QueueInv (s : State) : Prop := {
  queue_check : ∀ i, workers s !! i = Some WCheck → wake_pred s = true;
  queue_fetch : ∀ i, workers s !! i = Some WFetch → jobs s ≠ []
}.

(** Inside the constructor of [ThreadPool pool(n)] the counter [i] is the
    number of spawned workers and nothing has been submitted; afterwards
    the vector is never resized. *)
Definition CtorInv (n : Z) (s : State) (tr : list Event) : Prop :=
  match owner s with
  | OCtor n' i =>
      n' = n ∧ 0 ≤ i ∧ (i ≤ n ∨ i = 0) ∧ length (workers s) = Z.to_nat i ∧
      jobs s = [] ∧ (∀ c pc, clients s !! c = Some pc → pc = CIdle) ∧
      calls tr = [] ∧ pushes tr = []
  | ODtorJoin k => length (workers s) = Z.to_nat n ∧ (k ≤ length (workers s))%nat
  | _ => length (workers s) = Z.to_nat n
  end.

(** The stop flag, the joined workers and the events of the owner are
    determined by the control point of the owner. *)
Record OwnerInv (n : Z) (s : State) (tr : list Event) : Prop := {
  own_stop : stop s = stop_written (owner s);
  own_has_stop : has_stop tr = stop s;
  own_has_begin : has_begin tr = began (owner s);
  own_ctor : CtorInv n s tr;
  own_join : ∀ i pc, workers s !! i = Some pc → joined (owner s) i = true →
                     pc = WStopped;
  own_events : owner_events tr = expected_events n (owner s)
}.

(** The removed jobs followed by the queue are the pushed jobs; a removed
    job is begun or held by its remover, a begun job is completed or
    running; the pushes of a client follow its calls. *)
Record JobsInv (s : State) (tr : list Event) : Prop := {
  jobs_fifo : (snd <$> pops tr) ++ jobs s = snd <$> pushes tr;
  jobs_popped : pops tr ≡ₚ starts tr ++ holding (workers s);
  jobs_started : starts tr ≡ₚ finishes tr ++ running (workers s);
  jobs_client : ∀ c, by_client c (pushes tr) ++ pending (clients s !! c)
                     = by_client c (calls tr)
}.

(** Once a worker has returned, the stop flag is set and at least as many
    jobs have been removed as were pushed before it was set. *)
Definition DrainInv (s : State) (tr : list Event) : Prop :=
  ∀ i, workers s !! i = Some WStopped →
       stop s = true ∧
       (length (pushes (before_stop tr)) ≤ length (pops tr))%nat.

(** With at most one worker, jobs begin in the order of their removal. *)
Definition SingleInv (s : State) (tr : list Event) : Prop :=
  (length (workers s) ≤ 1)%nat → pops tr = starts tr ++ holding (workers s).

(** The destructor is entered before it sets the stop flag. *)
Definition ShutInv (tr : list Event) : Prop :=
  before_shutdown tr `prefix_of` before_stop tr.

(** Without workers no job is removed, begun or completed. *)
Definition NoWorkerInv (s : State) (tr : list Event) : Prop :=
  workers s = [] → pops tr = [] ∧ starts tr = [] ∧ finishes tr = [].

Record Inv (n : Z) (m : nat) (s : State) (tr : list Event) : Prop := {
  inv_lock : LockInv s;
  inv_holder : HolderInv s;
  inv_queue : QueueInv s;
  inv_owner : OwnerInv n s tr;
  inv_jobs : JobsInv s tr;
  inv_drain : DrainInv s tr;
  inv_single : SingleInv s tr;
  inv_shut : ShutInv tr;
  inv_no_worker : NoWorkerInv s tr;
  inv_clients : length (clients s) = m
}.

(** ** Runs used as instances *)

(** One call of [enqueue] run without interruption. *)
Definition enqueue_by (c : nat) (job : Job) (pick : nat) : list Action :=
  [ACall c job; AClient c pick; AClient c pick; AClient c pick; AClient c pick].

(** A demonstration run, after [main] with one worker and two jobs: the
    worker blocks, client 0 submits jobs 7 and 8, the owner enters the
    destructor and notifies, the worker drains the queue and returns, the
    owner joins it. *)
Definition demo_sched : list Action :=
  [AOwner; AOwner; AWorker 0; AWorker 0]
  ++ enqueue_by 0 7%nat 0 ++ enqueue_by 0 8%nat 0
  ++ replicate 5 AOwner
  ++ replicate 17 (AWorker 0)
  ++ [AOwner; AOwner].

(** [main]: a pool of [workersCount = 2] workers, jobs 0 to 9 submitted by
    the main thread (client 0), then the destructor at the end of [main].
    In this schedule worker 0 executes the ten jobs. *)
Definition main_sched : list Action :=
  replicate 3 AOwner
  ++ flat_map (λ jobId, enqueue_by 0 jobId 0) (seq 0 10)
  ++ replicate 5 AOwner
  ++ replicate 73 (AWorker 0)
  ++ replicate 3 (AWorker 1)
  ++ replicate 3 AOwner.

(** The state and the trace at the end of a run. *)
Definition final_state (r : result) : State :=
  match r with Done s _ => s | _ => init 0 0 end.
Definition final_trace (r : result) : list Event :=
  match r with Done _ tr => tr | _ => [] end.

(** Worker 0 is about to remove the first job (line 48). *)
Definition demo_fetch_state : State :=
  Eval vm_compute in final_state (run 1 1 (take 22 demo_sched)).
Definition demo_fetch_trace : list Event :=
  Eval vm_compute in final_trace (run 1 1 (take 22 demo_sched)).

(** Worker 0 is about to test line 44 for the last time. *)
Definition demo_check_state : State :=
  Eval vm_compute in final_state (run 1 1 (take 35 demo_sched)).
Definition demo_check_trace : list Event :=
  Eval vm_compute in final_trace (run 1 1 (take 35 demo_sched)).

Definition main_state : State :=
  Eval vm_compute in final_state (run 2 1 main_sched).
Definition main_trace : list Event :=
  Eval vm_compute in final_trace (run 2 1 main_sched).

(** The destructor has returned. *)
Definition demo_final_state : State :=
  Eval vm_compute in final_state (run 1 1 demo_sched).
Definition demo_final_trace : list Event :=
  Eval vm_compute in final_trace (run 1 1 demo_sched).

(** Worker 0 of the demonstration run, blocked, is notified by [enqueue]
    and stays in the Waiting state. *)
Definition demo_wait_state : State :=
  Eval vm_compute in final_state (run 1 1 (take 8 demo_sched)).
Definition demo_woken_state : State :=
  Eval vm_compute in final_state (run 1 1 (take 9 demo_sched)).

(** Shutdown has been requested (the stop flag is set and the workers are
    notified) when client 0 calls [enqueue(9)]. *)
Definition late_sched : list Action := replicate 7 AOwner.

Definition late_state : State :=
  Eval vm_compute in final_state (run 1 1 late_sched).
Definition late_trace : list Event :=
  Eval vm_compute in final_trace (run 1 1 late_sched).

(** Two workers, one client submitting job 7 then job 8: worker 0 removes
    job 7 and is overtaken, between lines 52 and 55, by worker 1, which
    removes job 8 and calls it first. *)
Definition overtake_sched : list Action :=
  [AOwner; AOwner; AOwner]
  ++ enqueue_by 0 7%nat 0 ++ enqueue_by 0 8%nat 0
  ++ replicate 5 (AWorker 0)
  ++ replicate 6 (AWorker 1)
  ++ [AWorker 0].

Definition overtake_state : State :=
  Eval vm_compute in final_state (run 2 1 overtake_sched).
Definition overtake_trace : list Event :=
  Eval vm_compute in final_trace (run 2 1 overtake_sched).

(** [ThreadPool pool(0)], one job submitted, then destruction. *)
Definition zero_sched : list Action :=
  [AOwner] ++ enqueue_by 0 7%nat 0 ++ replicate 6 AOwner.

Definition zero_state : State :=
  Eval vm_compute in final_state (run 0 1 zero_sched).
Definition zero_trace : list Event :=
  Eval vm_compute in final_trace (run 0 1 zero_sched).

(** ** Further notions on states *)

(** Thread [t] is inside a critical section of the source: between the
    lock of line 38 and the unlock of line 52 or the wait or the return
    (worker), inside the scope of lines 80-86 (client), inside the scope of
    lines 97-100 (owner). *)
Definition in_critical (s : State) (t : Tid) : Prop :=
  match t with
  | TOwner => owner_holds (owner s) = true
  | TWorker i => ∃ pc, workers s !! i = Some pc ∧ worker_holds pc = true
  | TClient c => ∃ pc, clients s !! c = Some pc ∧ client_holds pc = true
  end.

(** The owner is inside the constructor. *)
Definition in_ctor (pc : OwnerPc) : bool :=
  match pc with OCtor _ _ => true | _ => false end.

(** The worker has a job in hand: removed and not yet completed. *)
Definition has_job (pc : WorkerPc) : bool :=
  match pc with WUnlock _ | WCall _ | WInJob _ => true | _ => false end.

(** Worker 0 of the demonstration run is inside job 7. *)
Definition demo_job_state : State :=
  Eval vm_compute in final_state (run 1 1 (take 25 demo_sched)).
Definition demo_job_trace : list Event :=
  Eval vm_compute in final_trace (run 1 1 (take 25 demo_sched)).

(** Worker 0 of the demonstration run has returned; the owner has not joined
    it yet. *)
Definition demo_exit_state : State :=
  Eval vm_compute in final_state (run 1 1 (take 36 demo_sched)).
Definition demo_exit_trace : list Event :=
  Eval vm_compute in final_trace (run 1 1 (take 36 demo_sched)).

(** Once every worker has returned, no later transition removes, begins or
    completes a job; pushes go on appending to the queue. *)
Definition Retired (s0 : State) (tr0 : list Event) (s : State) (tr : list Event)
  : Prop :=
  all_stopped (workers s) ∧ in_ctor (owner s) = false ∧
  pops tr = pops tr0 ∧ starts tr = starts tr0 ∧ finishes tr = finishes tr0 ∧
  ∃ late, pushes tr = pushes tr0 ++ late ∧ jobs s = jobs s0 ++ (snd <$> late).

(** The jobs of one worker in a list of (worker, job) pairs, in order. *)
Definition by_worker (i : nat) (l : list (nat * Job)) : list Job :=
  omap (λ p, if (p.1 =? i)%nat then Some p.2 else None) l.

(** The job a worker has removed and not begun; begun and not completed. *)
Definition held_at (pc : option WorkerPc) : list Job :=
  match pc with
  | Some (WUnlock job) | Some (WCall job) => [job]
  | _ => []
  end.
Definition running_at (pc : option WorkerPc) : list Job :=
  match pc with
  | Some (WInJob job) => [job]
  | _ => []
  end.

(** Each worker begins the jobs it removes, and completes the jobs it
    begins, one at a time and in order. *)
Definition WorkerSeqInv (s : State) (tr : list Event) : Prop :=
  ∀ i, by_worker i (pops tr) = by_worker i (starts tr) ++ held_at (workers s !! i) ∧
       by_worker i (starts tr) = by_worker i (finishes tr) ++ running_at (workers s !! i).

(** A notification is on its way: a client is between its push and its
    [notify_one], or the owner between [stop = true] and its [notify_all]. *)
Definition notifying (pc : ClientPc) : bool :=
  match pc with CUnlock | CNotify => true | _ => false end.
Definition notifying_all (pc : OwnerPc) : bool :=
  match pc with ODtorUnlock | ODtorNotify => true | _ => false end.

(** No lost wake-up.  A worker is blocked with the stop flag set only while
    the owner has still to notify; and while the flag is clear, a non-empty
    queue comes with a worker that is not blocked or with a client that has
    still to notify. *)
Record WakeInv (s : State) : Prop := {
  wake_stop : ∀ i, workers s !! i = Some WWait → stop s = true →
                   notifying_all (owner s) = true;
  wake_job : stop s = false → jobs s ≠ [] → workers s ≠ [] →
             (∃ i pc, workers s !! i = Some pc ∧ pc ≠ WWait) ∨
             (∃ c pc, clients s !! c = Some pc ∧ notifying pc = true)
}.

(** The invariants of the claims, with the two above. *)
Record Inv2 (n : Z) (m : nat) (s : State) (tr : list Event) : Prop := {
  inv2_base : Inv n m s tr;
  inv2_seq : WorkerSeqInv s tr;
  inv2_wake : WakeInv s
}.

(** Every worker is blocked on the condition variable. *)
Definition all_blocked (ws : list WorkerPc) : Prop :=
  ∀ i pc, ws !! i = Some pc → pc = WWait.

(** Two workers blocked, job 7 pushed by client 0, which has not notified
    yet. *)
Definition pending_sched : list Action :=
  replicate 3 AOwner ++ replicate 2 (AWorker 0) ++ replicate 2 (AWorker 1)
  ++ take 4 (enqueue_by 0 7%nat 0).

Definition pending_state : State :=
  Eval vm_compute in final_state (run 2 1 pending_sched).
Definition pending_trace : list Event :=
  Eval vm_compute in final_trace (run 2 1 pending_sched).

(** The action by which a thread executes its next statement, and whether
    that statement can be executed now. *)
Definition thread_action (t : Tid) : Action :=
  match t with
  | TOwner => AOwner
  | TWorker i => AWorker i
  | TClient c => AClient c 0
  end.

Definition enabled (s : State) (t : Tid) : Prop :=
  ∃ e s', step s (thread_action t) = Next e s'.

(** ** [main] (lines 111-125) *)

(** The macro of line 12. *)
Definition workersCount : Z := 2.

(** Control points of the main thread.  It runs the constructor of [pool]
    (line 113), the loop of lines 118-124, whose body is one call of
    [enqueue], and at the end of [main] the destructor of [pool].  The
    lines written on [cout] are not part of the state of the pool and are
    left out. *)
Inductive MainPc :=
| MCtor                 (* line 113: inside the constructor *)
| MLoop (jobId : Z)     (* line 118: loop test *)
| MEnqueue (jobId : Z)  (* line 120: inside [enqueue] *)
| MDtor                 (* line 125: inside the destructor *)
| MExit.                (* [main] has returned *)

Record MainState := mkMain { mpc : MainPc; pool : State }.

(** The threads of the program: the main thread, which is the owner of the
    pool and its only client (client 0), and the workers. *)
Inductive MainAction :=
| MMain (pick : nat)
| MWorker (i : nat)
| MSpurious (i : nat).

Inductive main_outcome :=
| MNext (e : Event) (ms : MainState)
| MDisabled
| MUndefined.

Definition main_lift (o : outcome) (next : State → MainPc) : main_outcome :=
  match o with
  | Next e s' => MNext e (mkMain (next s') s')
  | Disabled => MDisabled
  | Undefined => MUndefined
  end.

(** The job submitted at line 120 captures [jobId] by value; it stands for
    the closure that prints [jobId] and sleeps. *)
Definition main_job (jobId : Z) : Job := Z.to_nat jobId.

Definition main_thread_step (pick : nat) (ms : MainState) : main_outcome :=
  let s := pool ms in
  match mpc ms with
  | MCtor =>
      main_lift (owner_step s)
        (λ s', match owner s' with OCtor _ _ => MCtor | _ => MLoop 0 end)
  | MLoop jobId =>
      if jobId <? 10
      then main_lift (call_step 0 (main_job jobId) s) (λ _, MEnqueue jobId)
      else main_lift (owner_step s) (λ _, MDtor)
  | MEnqueue jobId =>
      main_lift (client_step 0 pick s)
        (λ s', match clients s' !! 0%nat with
               | Some CIdle => MLoop (jobId + 1)
               | _ => MEnqueue jobId
               end)
  | MDtor =>
      main_lift (owner_step s)
        (λ s', match owner s' with ODone => MExit | _ => MDtor end)
  | MExit => MDisabled
  end.

Definition main_step (ms : MainState) (a : MainAction) : main_outcome :=
  match a with
  | MMain pick => main_thread_step pick ms
  | MWorker i => main_lift (worker_step i (pool ms)) (λ _, mpc ms)
  | MSpurious i => main_lift (spurious_step i (pool ms)) (λ _, mpc ms)
  end.

Definition main_init : MainState := mkMain MCtor (init workersCount 1).

Inductive main_result :=
| MDone (ms : MainState) (tr : list Event)
| MStuck
| MCrash.

Fixpoint main_run_from (sched : list MainAction) (ms : MainState)
    (tr : list Event) : main_result :=
  match sched with
  | [] => MDone ms tr
  | a :: sched' =>
      match main_step ms a with
      | MNext e ms' => main_run_from sched' ms' (tr ++ [e])
      | MDisabled => MStuck
      | MUndefined => MCrash
      end
  end.

Definition main_run (sched : list MainAction) : main_result :=
  main_run_from sched main_init [].

(** The action of the pool that a step of the program is. *)
Definition pool_action (ms : MainState) (a : MainAction) : Action :=
  match a with
  | MMain pick =>
      match mpc ms with
      | MLoop jobId => if jobId <? 10 then ACall 0 (main_job jobId) else AOwner
      | MEnqueue _ => AClient 0 pick
      | _ => AOwner
      end
  | MWorker i => AWorker i
  | MSpurious i => ASpurious i
  end.

(** The calls of [enqueue] made when the loop counter is [jobId]. *)
Definition submitted (jobId : Z) : list (nat * Job) :=
  (λ k, (0%nat, k)) <$> seq 0 (Z.to_nat jobId).

(** What the control point of the main thread says of the pool. *)
Definition MainInv (ms : MainState) (tr : list Event) : Prop :=
  let s := pool ms in
  match mpc ms with
  | MCtor => in_ctor (owner s) = true
  | MLoop jobId =>
      owner s = OLive ∧ clients s !! 0%nat = Some CIdle ∧ 0 ≤ jobId ≤ 10 ∧
      calls tr = submitted jobId ∧ pushes tr = submitted jobId
  | MEnqueue jobId =>
      owner s = OLive ∧ 0 ≤ jobId < 10 ∧ calls tr = submitted (jobId + 1) ∧
      ∃ pc, clients s !! 0%nat = Some pc ∧
            (pc = CLock (main_job jobId) ∨ pc = CPush (main_job jobId) ∨
             pc = CUnlock ∨ pc = CNotify) ∧
            pushes tr = submitted (if notifying pc then jobId + 1 else jobId)
  | MDtor =>
      began (owner s) = true ∧ owner s ≠ ODone ∧
      clients s !! 0%nat = Some CIdle ∧
      pushes tr = submitted 10 ∧ pushes (before_shutdown tr) = submitted 10
  | MExit =>
      owner s = ODone ∧ clients s !! 0%nat = Some CIdle ∧
      pushes tr = submitted 10 ∧ pushes (before_shutdown tr) = submitted 10
  end.

(** A complete run of the program: the main thread constructs the pool,
    submits the ten jobs and enters the destructor before a worker moves;
    worker 0 executes the ten jobs and returns, worker 1 returns, the main
    thread joins both. *)
Definition main_program_sched : list MainAction :=
  replicate 58 (MMain 0)
  ++ replicate 73 (MWorker 0) ++ replicate 3 (MWorker 1)
  ++ replicate 3 (MMain 0).

Definition main_final (r : main_result) : MainState :=
  match r with MDone ms _ => ms | _ => main_init end.
Definition main_events (r : main_result) : list Event :=
  match r with MDone _ tr => tr | _ => [] end.

Definition main_program_state : MainState :=
  Eval vm_compute in main_final (main_run main_program_sched).
Definition main_program_trace : list Event :=
  Eval vm_compute in main_events (main_run main_program_sched).

(** ** A scheduler that completes shutdown *)

(** The thread to run next: the holder of the mutex if there is one;
    otherwise the owner, or the worker that the owner is joining if that
    worker has not returned. *)
Definition next_action (s : State) : Action :=
  match mu s with
  | Some t => thread_action t
  | None =>
      match owner s with
      | ODtorJoin k =>
          match workers s !! k with
          | Some WStopped | None => AOwner
          | Some _ => AWorker k
          end
      | _ => AOwner
      end
  end.

Definition destroyed (pc : OwnerPc) : bool :=
  match pc with ODone => true | _ => false end.

(** The schedule that follows [next_action] until the destructor has
    returned, for at most [fuel] transitions. *)
Fixpoint drive (fuel : nat) (s : State) : list Action :=
  match fuel with
  | O => []
  | S fuel' =>
      if destroyed (owner s) then []
      else match step s (next_action s) with
           | Next _ s' => next_action s :: drive fuel' s'
           | _ => []
           end
  end.

(** A bound on the number of transitions [drive] needs: the statements
    each thread has left if the queue were empty, a full iteration of
    [worker_loop] per queued job, and what a notification or a spawn adds
    to the workers. *)
Definition worker_weight (pc : WorkerPc) : nat :=
  match pc with
  | WStopped | WWait => 0
  | WFetch => 1
  | WCheck => 2
  | WPred => 3
  | WLock | WRelock => 4
  | WInJob _ => 5
  | WCall _ => 6
  | WUnlock _ => 7
  end.

Definition client_weight (pc : ClientPc) : nat :=
  match pc with
  | CIdle => 0
  | CNotify => 5
  | CUnlock => 6
  | CPush _ => 15
  | CLock _ => 16
  end.

Definition owner_weight (pc : OwnerPc) (len : nat) : nat :=
  match pc with
  | OCtor n i => 7 + 5 * (len + Z.to_nat (n - i)) + 5 * Z.to_nat (n - i)
  | OLive => 6 + 5 * len
  | ODtorLock => 5 + 5 * len
  | ODtorStop => 4 + 5 * len
  | ODtorUnlock => 3 + 5 * len
  | ODtorNotify => 2 + 5 * len
  | ODtorJoin k => 1 + (len - k)
  | ODone => 0
  end.

Definition potential (s : State) : nat :=
  owner_weight (owner s) (length (workers s))
  + sum_list_with worker_weight (workers s)
  + sum_list_with client_weight (clients s)
  + 8 * length (jobs s).

(** * Proofs *)

(** ** Runs and invariants *)

Lemma run_from_cons a sched s tr :
  run_from (a :: sched) s tr =
  match step s a with
  | Next e s' => run_from sched s' (tr ++ [e])
  | Disabled => Stuck
  | Undefined => Crash
  end.
Proof. done. Qed.

Section Invariant.
Variable P : State → list Event → Prop.
Hypothesis P_step :
  ∀ s tr a e s', P s tr → step s a = Next e s' → P s' (tr ++ [e]).

Lemma run_from_invariant sched s tr s' tr' :
  P s tr → run_from sched s tr = Done s' tr' → P s' tr'.
Proof using P_step.
  revert s tr. induction sched as [|a sched IH]; intros s tr HP Hrun; simpl in Hrun.
  - by inversion Hrun; subst.
  - destruct (step s a) as [e s1| |] eqn:Hstep; try discriminate.
    eapply IH; [|exact Hrun]. eauto.
Qed.
End Invariant.

(** Case analysis on one transition. *)
Ltac break_match H :=
  repeat match type of H with
         | context [match ?x with _ => _ end] => destruct x eqn:?
         end;
  try discriminate H.

Ltac step_inv H :=
  unfold step, owner_step, worker_step, spurious_step, call_step, client_step in H;
  break_match H; inversion H; subst; clear H.

Ltac lookup_insert H :=
  apply list_lookup_insert_Some in H as [(? & ? & ?) | (? & H)]; simplify_eq.

(** ** The mutex is held where the source holds it *)

Lemma wake_holds pc : worker_holds (wake pc) = worker_holds pc.
Proof. by destruct pc. Qed.

Lemma notify_all_lookup ws i pc :
  notify_all ws !! i = Some pc → ∃ pc0, ws !! i = Some pc0 ∧ pc = wake pc0.
Proof.
  unfold notify_all. rewrite list_lookup_fmap.
  intros (pc0 & ? & ?)%fmap_Some. eauto.
Qed.

Lemma elem_of_waiters_from k ws w :
  w ∈ waiters_from k ws ↔ (k ≤ w)%nat ∧ ws !! (w - k)%nat = Some WWait.
Proof.
  revert k. induction ws as [|pc ws IH]; intros k; simpl.
  - rewrite elem_of_nil, lookup_nil. split; [done|]. by intros [_ ?].
  - assert (w ∈ waiters_from (S k) ws ↔
            (k < w)%nat ∧ (pc :: ws) !! (w - k)%nat = Some WWait) as Htl.
    { rewrite IH. split; intros [? Hl]; (split; [lia|]).
      - replace (w - k)%nat with (S (w - S k)) by lia. done.
      - replace (w - k)%nat with (S (w - S k)) in Hl by lia. done. }
    destruct (is_waiting pc) eqn:Hpc.
    + rewrite elem_of_cons, Htl. destruct pc; try discriminate. split.
      * intros [->|[? ?]]; [|split; [lia|done]].
        split; [lia|]. by rewrite Nat.sub_diag.
      * intros [? Hl]. destruct (decide (w = k)); [by left|right].
        split; [lia|done].
    + rewrite Htl. split; [intros [? ?]; split; [lia|done]|].
      intros [? Hl]. split; [|done].
      destruct (decide (w = k)) as [->|]; [|lia].
      rewrite Nat.sub_diag in Hl. simpl in Hl. simplify_eq.
Qed.

Lemma elem_of_waiters ws w : w ∈ waiters ws ↔ ws !! w = Some WWait.
Proof.
  unfold waiters. rewrite elem_of_waiters_from, Nat.sub_0_r.
  split; [by intros [_ ?]|]. split; [lia|done].
Qed.

Lemma notify_target_Some ws pick w :
  notify_target ws pick = Some w → ws !! w = Some WWait.
Proof.
  unfold notify_target. intros H. apply elem_of_waiters.
  destruct (waiters ws !! pick) as [w'|] eqn:Hp.
  - simplify_eq. by eapply list_elem_of_lookup_2.
  - destruct (waiters ws) as [|w' l]; simplify_eq. simpl in H. simplify_eq. left.
Qed.

Lemma notify_target_None ws pick :
  notify_target ws pick = None → waiters ws = [].
Proof.
  unfold notify_target. destruct (waiters ws !! pick); [done|].
  by destruct (waiters ws).
Qed.

Lemma notify_one_lookup ws pick i pc :
  notify_one ws pick !! i = Some pc →
  ws !! i = Some pc ∨ (ws !! i = Some WWait ∧ pc = WRelock).
Proof.
  unfold notify_one. destruct (notify_target ws pick) as [w|] eqn:Ht; [|auto].
  apply notify_target_Some in Ht.
  intros H. lookup_insert H; auto.
Qed.

Lemma length_notify_one ws pick : length (notify_one ws pick) = length ws.
Proof.
  unfold notify_one. destruct (notify_target ws pick); [|done].
  apply length_insert.
Qed.

Lemma length_notify_all ws : length (notify_all ws) = length ws.
Proof. apply length_fmap. Qed.

Lemma lock_inv_init n m : LockInv (init n m).
Proof.
  split; simpl; try done.
  intros c pc [-> _]%lookup_replicate. done.
Qed.

Lemma lock_inv_step s a e s' :
  LockInv s → step s a = Next e s' → LockInv s'.
Proof.
  intros [Hw Hc Ho] Hstep.
  destruct a; step_inv Hstep;
    try match goal with
        | H : workers _ !! _ = Some _ |- _ => pose proof (Hw _ _ H eq_refl)
        | H : clients _ !! _ = Some _ |- _ => pose proof (Hc _ _ H eq_refl)
        end;
    try (specialize (Ho eq_refl));
    split; simpl; try done; intros;
    repeat match goal with
      | H : (_ ++ [_]) !! _ = Some _ |- _ =>
          apply lookup_app_Some in H as [H | [_ H]];
          [| apply list_lookup_singleton_Some in H as [_ <-]; done]
      | H : notify_all _ !! _ = Some _ |- _ =>
          apply notify_all_lookup in H as (? & H & ->);
          rewrite wake_holds in *
      | H : notify_one _ _ !! _ = Some _ |- _ =>
          apply notify_one_lookup in H as [H | [_ ->]]; [|done]
      | H : <[_:=_]> _ !! _ = Some _ |- _ => lookup_insert H; try done
      | H : workers _ !! _ = Some _, H' : worker_holds _ = true |- _ =>
          pose proof (Hw _ _ H H'); clear H; try congruence
      | H : clients _ !! _ = Some _, H' : client_holds _ = true |- _ =>
          pose proof (Hc _ _ H H'); clear H; try congruence
      | H : owner_holds _ = true |- _ => specialize (Ho H); try congruence
      end; try congruence; eauto.
Qed.

Ltac norm_lookup :=
  repeat match goal with
    | H : (_ ++ [_]) !! _ = Some _ |- _ =>
        apply lookup_app_Some in H as [H | [? H]];
        [| apply list_lookup_singleton_Some in H as [? ?]; simplify_eq]
    | H : notify_all _ !! _ = Some _ |- _ =>
        apply notify_all_lookup in H as (? & H & ?)
    | H : notify_one _ _ !! _ = Some _ |- _ =>
        apply notify_one_lookup in H as [H | [H ?]]; simplify_eq
    | H : <[_:=_]> _ !! _ = Some _ |- _ => lookup_insert H
    end.

Lemma wake_eq pc0 pc : pc = wake pc0 → is_waiting pc = false → pc ≠ WRelock → pc0 = pc.
Proof. destruct pc0; cbv [wake is_waiting]; intros -> ? ?; congruence. Qed.

(** ** The queue is not empty where it is read *)

Lemma queue_inv_init n m : QueueInv (init n m).
Proof. split; simpl; intros i; by rewrite lookup_nil. Qed.

Lemma queue_inv_step s a e s' :
  LockInv s → QueueInv s → step s a = Next e s' → QueueInv s'.
Proof.
  intros [Hw Hc Ho] [Hck Hfe] Hstep.
  destruct a; step_inv Hstep;
    try match goal with
        | H : workers _ !! _ = Some _ |- _ => pose proof (Hw _ _ H eq_refl)
        | H : clients _ !! _ = Some _ |- _ => pose proof (Hc _ _ H eq_refl)
        end;
    try (specialize (Ho eq_refl));
    split; unfold wake_pred, exit_test in *; simpl in *; intros;
    norm_lookup; try done;
    repeat match goal with
      | H : _ = wake _ |- _ => apply wake_eq in H; [subst|done..]
      end;
    try match goal with
      | H : workers _ !! _ = Some WCheck |- _ =>
          pose proof (Hw _ _ H eq_refl); pose proof (Hck _ H)
      | H : workers _ !! _ = Some WFetch |- _ =>
          pose proof (Hw _ _ H eq_refl); pose proof (Hfe _ H)
      end;
    try congruence; eauto.
  - (* line 44 found false: the queue is not empty *)
    destruct (stop s), (jobs s); simpl in *; congruence.
Qed.

(** ** Facts on traces *)

Lemma existsb_snoc {A} (p : A → bool) l x : existsb p (l ++ [x]) = existsb p l || p x.
Proof. rewrite existsb_app. simpl. by rewrite orb_false_r. Qed.

Lemma has_stop_snoc tr e : has_stop (tr ++ [e]) = has_stop tr || is_set_stop e.
Proof. apply existsb_snoc. Qed.

Lemma has_begin_snoc tr e : has_begin (tr ++ [e]) = has_begin tr || is_dtor_begin e.
Proof. apply existsb_snoc. Qed.

Lemma before_snoc p tr e :
  before p (tr ++ [e]) =
  if existsb p tr then before p tr else if p e then tr else tr ++ [e].
Proof.
  induction tr as [|e0 tr IH]; simpl.
  - by destruct (p e).
  - destruct (p e0); simpl; [done|].
    rewrite IH. destruct (existsb p tr); [done|]. by destruct (p e).
Qed.

Lemma before_stop_snoc tr e :
  before_stop (tr ++ [e]) =
  if has_stop tr then before_stop tr
  else if is_set_stop e then tr else tr ++ [e].
Proof. apply before_snoc. Qed.

Lemma before_prefix p tr : before p tr `prefix_of` tr.
Proof.
  induction tr as [|e tr IH]; simpl; [done|].
  destruct (p e); [apply prefix_nil|by apply prefix_cons].
Qed.

Lemma before_stop_prefix tr : before_stop tr `prefix_of` tr.
Proof. apply before_prefix. Qed.

Lemma before_all p tr : existsb p tr = false → before p tr = tr.
Proof.
  induction tr as [|e tr IH]; simpl; [done|].
  destruct (p e); simpl; [done|]. intros H. by rewrite IH.
Qed.

Lemma omap_snoc {A B} (f : A → option B) l x :
  omap f (l ++ [x]) = omap f l ++ match f x with Some y => [y] | None => [] end.
Proof. rewrite omap_app. simpl. by destruct (f x). Qed.

Lemma fmap_prefix_of {A B} (f : A → B) l1 l2 :
  l1 `prefix_of` l2 → (f <$> l1) `prefix_of` (f <$> l2).
Proof. intros [k ->]. rewrite fmap_app. by eexists. Qed.

Lemma omap_prefix {A B} (f : A → option B) l1 l2 :
  l1 `prefix_of` l2 → omap f l1 `prefix_of` omap f l2.
Proof. intros [k ->]. rewrite omap_app. by eexists. Qed.

Ltac trace_simpl :=
  unfold pushes, pops, starts, finishes, calls, owner_events, by_client in *;
  rewrite ?omap_snoc, ?has_stop_snoc, ?has_begin_snoc in *; simpl in *;
  rewrite ?app_nil_r, ?orb_false_r in *.

(** ** The owner: constructor, stop flag, joins *)

Lemma owner_inv_init n m : OwnerInv n (init n m) [].
Proof.
  split; simpl; try done.
  unfold CtorInv; simpl. repeat split; try done; try lia.
  intros c pc [-> _]%lookup_replicate. done.
Qed.


Lemma seq_snoc_fmap {A} (f : nat → A) k :
  f <$> seq 0 (S k) = (f <$> seq 0 k) ++ [f k].
Proof. by rewrite seq_S, fmap_app. Qed.

Lemma owner_inv_step n s tr a e s' :
  OwnerInv n s tr → step s a = Next e s' → OwnerInv n s' (tr ++ [e]).
Proof.
  intros [Hs Hh Hb Hc Hj He] Hstep. unfold CtorInv in *.
  destruct a; step_inv Hstep; split; unfold CtorInv; trace_simpl;
    rewrite ?length_insert, ?length_app, ?length_notify_one, ?length_notify_all;
    try done; try congruence; try apply orb_true_r;
    try (intros; norm_lookup; eauto; fail);
    try (intros i0 pc0 Hl Hjn; norm_lookup; eauto;
         match goal with
         | H : workers s !! _ = Some _ |- _ =>
             pose proof (Hj _ _ H Hjn); simplify_eq
         end; fail);
    try (destruct (owner s); try done; destruct_and?; simplify_eq;
         match goal with
         | H : ∀ c pc, clients s !! c = Some pc → pc = CIdle,
           H' : clients s !! _ = Some _ |- _ => apply H in H'; simplify_eq
         end; fail).
  - (* spawn *)
    destruct Hc as (-> & ? & ? & Hlen & ? & ? & ? & ?).
    apply Z.ltb_lt in Heqb. simpl. repeat split; try done; lia.
  - destruct Hc as (-> & ? & ? & Hlen & ? & ? & ? & ?).
    apply Z.ltb_lt in Heqb. rewrite He, Hlen.
    replace (Z.to_nat (i + 1)) with (S (Z.to_nat i)) by lia.
    by rewrite seq_snoc_fmap.
  - (* return of the constructor *)
    destruct Hc as (-> & ? & ? & Hlen & ? & ? & ? & ?).
    apply Z.ltb_ge in Heqb. lia.
  - destruct Hc as (-> & ? & ? & Hlen & ? & ? & ? & ?).
    apply Z.ltb_ge in Heqb. rewrite He. unfold ctor_events.
    replace (Z.to_nat n) with (Z.to_nat i) by lia. done.
  - rewrite He. by rewrite <- app_assoc.
  - rewrite He. by rewrite <- app_assoc.
  - rewrite He. by rewrite <- app_assoc.
  - split; [done|lia].
  - rewrite He. by rewrite <- app_assoc.
  - (* join *)
    destruct Hc as [? ?]. split; [done|].
    match goal with H : workers s !! _ = Some _ |- _ => apply lookup_lt_Some in H end.
    lia.
  - intros i pc Hl Hlt. destruct (decide (i = k)) as [->|]; [congruence|].
    apply (Hj i); [done|]. apply Nat.ltb_lt in Hlt. apply Nat.ltb_lt. lia.
  - rewrite He.
    change (EvJoin 0 :: list_fmap nat Event EvJoin (seq 1 k))
      with (EvJoin <$> seq 0 (S k)).
    rewrite seq_snoc_fmap. rewrite <- !app_assoc. simpl. done.
  - (* return of the destructor *)
    by destruct Hc.
  - intros i pc Hl _.
    match goal with H : workers s !! _ = None |- _ => apply lookup_ge_None in H end.
    apply (Hj i); [done|]. apply lookup_lt_Some in Hl.
    apply Nat.ltb_lt. lia.
  - destruct Hc as [Hlen Hk].
    match goal with H : workers s !! _ = None |- _ => apply lookup_ge_None in H end.
    assert (k = Z.to_nat n) as -> by lia.
    rewrite He. rewrite <- !app_assoc. simpl. done.
Qed.

(** ** Jobs in flight *)

Lemma tagged_from_snoc f k ws pc :
  f pc = None → tagged_from f k (ws ++ [pc]) = tagged_from f k ws.
Proof.
  intros Hpc. revert k. induction ws as [|pc0 ws IH]; intros k; simpl.
  - by rewrite Hpc.
  - rewrite IH. done.
Qed.

Lemma tagged_from_fmap f g k ws :
  (∀ pc, f (g pc) = f pc) → tagged_from f k (g <$> ws) = tagged_from f k ws.
Proof.
  intros Hg. revert k. induction ws as [|pc0 ws IH]; intros k; simpl; [done|].
  rewrite Hg, IH. done.
Qed.

Lemma tagged_insert_same f k ws i pc pc' :
  ws !! i = Some pc → f pc' = f pc →
  tagged_from f k (<[i:=pc']> ws) = tagged_from f k ws.
Proof.
  revert k i. induction ws as [|pc0 ws IH]; intros k [|i] Hl Hf; simpl in *;
    simplify_eq; [by rewrite Hf|].
  by rewrite (IH _ _ Hl Hf).
Qed.

Lemma tagged_insert_add f k ws i pc pc' job :
  ws !! i = Some pc → f pc = None → f pc' = Some job →
  tagged_from f k (<[i:=pc']> ws) ≡ₚ (k + i, job)%nat :: tagged_from f k ws.
Proof.
  revert k i. induction ws as [|pc0 ws IH]; intros k [|i] Hl Hf Hf'; simpl in *;
    simplify_eq.
  - rewrite Hf, Hf', Nat.add_0_r. done.
  - pose proof (IH (S k) _ Hl Hf Hf') as IH'.
    replace (S k + i)%nat with (k + S i)%nat in IH' by lia.
    destruct (f pc0); rewrite IH'; [apply Permutation_swap|done].
Qed.

Lemma tagged_insert_del f k ws i pc pc' job :
  ws !! i = Some pc → f pc = Some job → f pc' = None →
  tagged_from f k ws ≡ₚ (k + i, job)%nat :: tagged_from f k (<[i:=pc']> ws).
Proof.
  revert k i. induction ws as [|pc0 ws IH]; intros k [|i] Hl Hf Hf'; simpl in *;
    simplify_eq.
  - rewrite Hf, Hf', Nat.add_0_r. done.
  - pose proof (IH (S k) _ Hl Hf Hf') as IH'.
    replace (S k + i)%nat with (k + S i)%nat in IH' by lia.
    destruct (f pc0); rewrite IH'; [apply Permutation_swap|done].
Qed.

Lemma tagged_notify_one f ws pick k :
  f WRelock = f WWait →
  tagged_from f k (notify_one ws pick) = tagged_from f k ws.
Proof.
  intros Hf. unfold notify_one.
  destruct (notify_target ws pick) as [w|] eqn:Ht; [|done].
  apply notify_target_Some in Ht. by eapply tagged_insert_same.
Qed.

Lemma tagged_notify_all f ws k :
  f WRelock = f WWait →
  tagged_from f k (notify_all ws) = tagged_from f k ws.
Proof.
  intros Hf. apply tagged_from_fmap. intros pc. by destruct pc.
Qed.

Lemma tagged_all_stopped f ws k :
  f WStopped = None → all_stopped ws → tagged_from f k ws = [].
Proof.
  intros Hf. revert k. induction ws as [|pc ws IH]; intros k Hall; simpl; [done|].
  rewrite (Hall 0%nat pc eq_refl), Hf. apply IH.
  intros i pc' Hl. apply (Hall (S i)). done.
Qed.

(** ** The queue is FIFO and every removed job is executed once *)

Lemma jobs_inv_init n m : JobsInv (init n m) [].
Proof.
  split; simpl; try done.
  intros c. destruct (replicate m CIdle !! c) as [pc|] eqn:Hl; [|done].
  apply lookup_replicate in Hl as [-> _]. done.
Qed.

Lemma jobs_fifo_step s tr a e s' :
  (snd <$> pops tr) ++ jobs s = snd <$> pushes tr →
  step s a = Next e s' →
  (snd <$> pops (tr ++ [e])) ++ jobs s' = snd <$> pushes (tr ++ [e]).
Proof.
  intros IH Hstep.
  destruct a; step_inv Hstep; trace_simpl; rewrite ?fmap_app; simpl; try done.
  - rewrite <- app_assoc. simpl. congruence.
  - rewrite app_assoc. congruence.
Qed.

Ltac tagged_simpl :=
  unfold holding, running;
  rewrite ?tagged_notify_one, ?tagged_notify_all, ?tagged_from_snoc by done;
  repeat match goal with
    | H : workers ?s !! ?i = Some ?pc
      |- context [tagged_from ?f ?k (<[?i:=?pc']> (workers ?s))] =>
        first
          [ rewrite (tagged_insert_same f k (workers s) i pc pc' H eq_refl)
          | rewrite (tagged_insert_add f k (workers s) i pc pc' _ H eq_refl eq_refl)
          | rewrite (tagged_insert_del f k (workers s) i pc pc' _ H eq_refl eq_refl) ]
    end.

Lemma jobs_popped_step s tr a e s' :
  pops tr ≡ₚ starts tr ++ holding (workers s) →
  step s a = Next e s' →
  pops (tr ++ [e]) ≡ₚ starts (tr ++ [e]) ++ holding (workers s').
Proof.
  intros IH Hstep.
  destruct a; step_inv Hstep; trace_simpl; tagged_simpl; simpl; try done.
  - rewrite IH, <- app_assoc. apply Permutation_app_head.
    symmetry. apply Permutation_cons_append.
  - rewrite IH. unfold holding.
    rewrite (tagged_insert_del held_job 0 (workers s) i _ (WInJob job) job Heqo eq_refl eq_refl).
    rewrite <- app_assoc. done.
Qed.

Lemma jobs_started_step s tr a e s' :
  starts tr ≡ₚ finishes tr ++ running (workers s) →
  step s a = Next e s' →
  starts (tr ++ [e]) ≡ₚ finishes (tr ++ [e]) ++ running (workers s').
Proof.
  intros IH Hstep.
  destruct a; step_inv Hstep; trace_simpl; tagged_simpl; simpl; try done.
  - rewrite IH, <- app_assoc. apply Permutation_app_head.
    symmetry. apply Permutation_cons_append.
  - rewrite IH. unfold running.
    rewrite (tagged_insert_del running_job 0 (workers s) i _ WLock job Heqo eq_refl eq_refl).
    rewrite <- app_assoc. done.
Qed.

Lemma by_client_snoc c l c' job :
  by_client c (l ++ [(c', job)]) =
  by_client c l ++ (if (c' =? c)%nat then [job] else []).
Proof. unfold by_client. rewrite omap_snoc. simpl. by destruct (c' =? c)%nat. Qed.

Lemma jobs_client_step s tr a e s' :
  (∀ c, by_client c (pushes tr) ++ pending (clients s !! c) = by_client c (calls tr)) →
  step s a = Next e s' →
  ∀ c, by_client c (pushes (tr ++ [e])) ++ pending (clients s' !! c)
       = by_client c (calls (tr ++ [e])).
Proof.
  intros IH Hstep c0. specialize (IH c0).
  destruct a; step_inv Hstep; unfold pushes, calls in *;
    rewrite ?omap_snoc; simpl; rewrite ?app_nil_r, ?by_client_snoc; try done;
    (destruct (decide (c = c0)) as [->|Hne];
     [ rewrite Nat.eqb_refl || idtac;
       rewrite list_lookup_insert_eq by (by eapply lookup_lt_Some);
       match goal with H : clients s !! c0 = Some _ |- _ => rewrite H in IH end;
       simpl in *; rewrite <- ?IH, ?app_nil_r, <- ?app_assoc; done
     | try (apply Nat.eqb_neq in Hne as Hne'; rewrite Hne');
       rewrite list_lookup_insert_ne by done; rewrite ?app_nil_r; done ]).
Qed.

(** ** Draining *)

Lemma pushes_before_stop_prefix tr : pushes (before_stop tr) `prefix_of` pushes tr.
Proof. apply omap_prefix, before_stop_prefix. Qed.

Lemma drain_inv_step s tr a e s' :
  has_stop tr = stop s →
  (snd <$> pops tr) ++ jobs s = snd <$> pushes tr →
  DrainInv s tr → step s a = Next e s' → DrainInv s' (tr ++ [e]).
Proof.
  intros Hh Hfifo IH Hstep i0 Hl.
  assert (∀ i, workers s !! i = Some WStopped →
            stop s = true ∧
            (length (pushes (before_stop (tr ++ [e]))) ≤ length (pops (tr ++ [e])))%nat)
    as Hkeep.
  { intros i Hi. destruct (IH i Hi) as [Hst Hle]. split; [done|].
    rewrite before_stop_snoc, Hh, Hst. unfold pops in *. rewrite omap_snoc, length_app. lia. }
  destruct a; step_inv Hstep; simpl in *; norm_lookup;
    try (destruct (Hkeep _ Hl); done);
    try match goal with
        | H : _ = wake _ |- _ => apply wake_eq in H; [subst|done..]
        end;
    try (destruct (Hkeep _ Hl); done).
  (* line 45: the worker returns *)
  unfold exit_test in *.
  destruct (stop s) eqn:Hst; [|done]. destruct (jobs s) eqn:Hq; [|done].
  split; [done|]. rewrite before_stop_snoc, Hh. unfold pops. rewrite omap_snoc. simpl.
  rewrite app_nil_r in *. fold (pops tr).
  apply (f_equal length) in Hfifo. rewrite !length_fmap in Hfifo. rewrite Hfifo.
  apply prefix_length, pushes_before_stop_prefix.
Qed.

Lemma drain_inv_init n m : DrainInv (init n m) [].
Proof. intros i. simpl. by rewrite lookup_nil. Qed.

(** ** With one worker, jobs begin in the order of their removal *)

Lemma single_inv_init n m : SingleInv (init n m) [].
Proof. by intros _. Qed.

Lemma single_inv_step s tr a e s' :
  SingleInv s tr → step s a = Next e s' → SingleInv s' (tr ++ [e]).
Proof.
  intros IH Hstep Hlen. unfold SingleInv in IH.
  destruct a; step_inv Hstep; trace_simpl;
    rewrite ?length_insert, ?length_app, ?length_notify_one, ?length_notify_all in Hlen;
    simpl in Hlen; tagged_simpl; try (apply IH; lia).
  - specialize (IH Hlen). destruct (workers s) as [|pc [|? ?]]; simpl in *; try lia.
    + by rewrite lookup_nil in Heqo.
    + destruct i; simpl in *; simplify_eq. rewrite IH. simpl. by rewrite app_nil_r.
  - specialize (IH Hlen). destruct (workers s) as [|pc [|? ?]]; simpl in *; try lia.
    + by rewrite lookup_nil in Heqo.
    + destruct i; simpl in *; simplify_eq. rewrite IH. simpl. by rewrite app_nil_r.
Qed.

(** ** The holder of the mutex is inside a critical section *)

Lemma holder_inv_init n m : HolderInv (init n m).
Proof. done. Qed.

Lemma holder_inv_step s a e s' :
  HolderInv s → step s a = Next e s' → HolderInv s'.
Proof.
  unfold HolderInv. intros IH Hstep.
  destruct a; step_inv Hstep; simpl; try done;
    try (eexists; split;
         [apply list_lookup_insert_eq; by eapply lookup_lt_Some|done]);
    destruct (mu s) as [[|i0|c0]|]; try done; try congruence;
    destruct IH as (pc0 & Hl0 & Hh0).
  - exists pc0. split; [by apply lookup_app_l_Some|done].
  - exists (wake pc0). unfold notify_all. rewrite list_lookup_fmap, Hl0, wake_holds. done.
  - destruct (decide (i = i0)) as [->|];
      [rewrite list_lookup_insert_eq by (by eapply lookup_lt_Some); eauto
      |rewrite list_lookup_insert_ne by done; eauto].
  - destruct (decide (i = i0)) as [->|];
      [rewrite list_lookup_insert_eq by (by eapply lookup_lt_Some); eauto
      |rewrite list_lookup_insert_ne by done; eauto].
  - destruct (decide (i = i0)) as [->|];
      [rewrite list_lookup_insert_eq by (by eapply lookup_lt_Some); eauto
      |rewrite list_lookup_insert_ne by done; eauto].
  - destruct (decide (i = i0)) as [->|];
      [simplify_eq|rewrite list_lookup_insert_ne by done; eauto].
  - destruct (decide (i = i0)) as [->|];
      [simplify_eq|rewrite list_lookup_insert_ne by done; eauto].
  - destruct (decide (i = i0)) as [->|];
      [simplify_eq|rewrite list_lookup_insert_ne by done; eauto].
  - destruct (decide (c = c0)) as [->|];
      [simplify_eq|rewrite list_lookup_insert_ne by done; eauto].
  - destruct (decide (c = c0)) as [->|];
      [rewrite list_lookup_insert_eq by (by eapply lookup_lt_Some); eauto
      |rewrite list_lookup_insert_ne by done; eauto].
  - unfold notify_one. destruct (notify_target _ _) as [w|] eqn:Ht; [|eauto].
    apply notify_target_Some in Ht.
    destruct (decide (w = i0)) as [->|];
      [simplify_eq|rewrite list_lookup_insert_ne by done; eauto].
  - destruct (decide (c = c0)) as [->|];
      [simplify_eq|rewrite list_lookup_insert_ne by done; eauto].
Qed.

(** ** Jobs pushed before the destructor is entered precede [stop = true] *)

Lemma step_set_stop s a s' : step s a = Next EvSetStop s' → owner s = ODtorStop.
Proof. intros Hstep. destruct a; step_inv Hstep; done. Qed.

Lemma shut_inv_step n s tr a e s' :
  OwnerInv n s tr → ShutInv tr → step s a = Next e s' → ShutInv (tr ++ [e]).
Proof.
  intros [Hs Hh Hb _ _ _] IH Hstep. unfold ShutInv, before_shutdown, before_stop in *.
  rewrite !before_snoc. fold (has_stop tr) (has_begin tr). rewrite Hh, Hb, Hs.
  destruct (stop_written (owner s)) eqn:Hw.
  { by replace (began (owner s)) with true by (by destruct (owner s)). }
  unfold has_stop in Hh. rewrite Hs in Hh.
  rewrite (before_all _ _ Hh) in IH.
  destruct (began (owner s)) eqn:Hbg.
  { destruct (is_set_stop e); [done|]. by apply prefix_app_r. }
  destruct (is_dtor_begin e) eqn:He.
  { destruct e; try done. simpl. by apply prefix_app_r. }
  destruct (is_set_stop e) eqn:He'; [|done].
  destruct e; try done. apply step_set_stop in Hstep. by rewrite Hstep in Hbg.
Qed.

(** ** Only workers remove and execute jobs *)

Lemma insert_nil_inv {A} (l : list A) i x : <[i:=x]> l = [] → l = [].
Proof. by destruct l, i. Qed.

Lemma no_worker_inv_step s tr a e s' :
  NoWorkerInv s tr → step s a = Next e s' → NoWorkerInv s' (tr ++ [e]).
Proof.
  intros IH Hstep Hnil. unfold NoWorkerInv in IH.
  destruct a; step_inv Hstep; simpl in Hnil;
    try (apply insert_nil_inv in Hnil; rewrite Hnil, lookup_nil in *; done);
    try (by destruct (workers s));
    trace_simpl; try (apply IH; done).
  - apply IH. unfold notify_all in Hnil. by apply fmap_nil_inv in Hnil.
  - apply IH. unfold notify_one in Hnil.
    destruct (notify_target _ _); [by apply insert_nil_inv in Hnil|done].
Qed.

(** ** All invariants together *)

Lemma inv_init n m : Inv n m (init n m) [].
Proof.
  split.
  - apply lock_inv_init.
  - apply holder_inv_init.
  - apply queue_inv_init.
  - apply owner_inv_init.
  - apply jobs_inv_init.
  - apply drain_inv_init.
  - apply single_inv_init.
  - by exists [].
  - done.
  - apply length_replicate.
Qed.

Lemma inv_step n m s tr a e s' :
  Inv n m s tr → step s a = Next e s' → Inv n m s' (tr ++ [e]).
Proof.
  intros [Hl Hh Hq Ho [Hf Hp Hs Hc] Hd Hsg Hsh Hnw Hcl] Hstep. split.
  - by eapply lock_inv_step.
  - by eapply holder_inv_step.
  - by eapply queue_inv_step.
  - by eapply owner_inv_step.
  - split.
    + by eapply jobs_fifo_step.
    + by eapply jobs_popped_step.
    + by eapply jobs_started_step.
    + by eapply jobs_client_step.
  - eapply drain_inv_step; [apply Ho|done..].
  - by eapply single_inv_step.
  - by eapply shut_inv_step.
  - by eapply no_worker_inv_step.
  - rewrite <- Hcl. clear -Hstep.
    destruct a; step_inv Hstep; simpl; by rewrite ?length_insert.
Qed.

Lemma run_from_inv n m sched s tr s' tr' :
  Inv n m s tr → run_from sched s tr = Done s' tr' → Inv n m s' tr'.
Proof. apply run_from_invariant. intros. by eapply inv_step. Qed.

Lemma run_inv n m sched s tr : run n m sched = Done s tr → Inv n m s tr.
Proof. apply run_from_inv, inv_init. Qed.

(** * The claims *)

(** ** The queue is never read empty *)

Lemma step_defined n m s tr a : Inv n m s tr → step s a ≠ Undefined.
Proof.
  intros HI Hstep. destruct a; simpl in Hstep;
    unfold owner_step, worker_step, spurious_step, call_step, client_step in Hstep;
    break_match Hstep.
  eapply (queue_fetch _ (inv_queue _ _ _ _ HI)); eauto.
Qed.

Lemma run_from_no_crash n m sched s tr :
  Inv n m s tr → run_from sched s tr ≠ Crash.
Proof.
  revert s tr. induction sched as [|a sched IH]; intros s tr HI; simpl; [done|].
  destruct (step s a) as [e s1| |] eqn:Hstep; [|done|].
  - apply IH. by eapply inv_step.
  - by eapply step_defined in Hstep.
Qed.

(** C6: in the worker loop, front-then-pop (lines 48-49) is only executed
    on a non-empty queue.  No schedule reaches the undefined behaviour of
    [pop] on an empty queue; whenever a worker stands at line 48 it holds the
    mutex and the queue has a head, which the step removes; and a worker
    stands at line 44 only with the wait predicate true, the mutex held. *)
Theorem pop_only_on_nonempty_queue (n : Z) (m : nat) (sched : list Action) :
  run n m sched ≠ Crash ∧
  ∀ s tr i, run n m sched = Done s tr →
    (workers s !! i = Some WCheck → mu s = Some (TWorker i) ∧ wake_pred s = true) ∧
    (workers s !! i = Some WFetch →
       mu s = Some (TWorker i) ∧ jobs s ≠ [] ∧
       ∃ job rest, jobs s = job :: rest ∧
         step s (AWorker i) =
           Next (EvPop i job) (set_worker i (WUnlock job) (set_jobs rest s))).
Proof.
  split; [eapply run_from_no_crash, inv_init|].
  intros s tr i Hrun. apply run_inv in Hrun as HI.
  destruct HI as [Hl _ Hq _ _ _ _ _ _ _]. split; intros Hi.
  - split; [by eapply (lock_worker _ Hl)|by eapply (queue_check _ Hq)].
  - split; [by eapply (lock_worker _ Hl)|].
    pose proof (queue_fetch _ Hq _ Hi) as Hne. split; [done|].
    destruct (jobs s) as [|job rest] eqn:Hj; [done|]. exists job, rest.
    split; [done|]. simpl. unfold worker_step. by rewrite Hi, Hj.
Qed.

Lemma pop_only_on_nonempty_queue_witness :
  jobs demo_fetch_state ≠ [] ∧ mu demo_fetch_state = Some (TWorker 0).
Proof.
  destruct (pop_only_on_nonempty_queue 1 1 (take 22 demo_sched)) as [_ H].
  destruct (H demo_fetch_state demo_fetch_trace 0%nat eq_refl) as [_ H'].
  destruct (H' eq_refl) as (Hmu & Hne & _). split; assumption.
Defined.

Lemma step_stop_mono s a e s' : step s a = Next e s' → stop s = true → stop s' = true.
Proof. intros Hstep. destruct a; step_inv Hstep; done. Qed.

Lemma run_from_stop_mono sched s tr s' tr' :
  run_from sched s tr = Done s' tr' → stop s = true → stop s' = true.
Proof.
  intros Hrun Hs.
  apply (run_from_invariant (λ s _, stop s = true)) in Hrun; [done| |done].
  intros. by eapply step_stop_mono.
Qed.

(** C9: the stop flag is monotonic.  It is false when the constructor is
    entered and as long as the destructor has not executed line 99; the only
    transition that changes it is line 99 of the destructor, which sets it
    to true; no transition of any thread resets it, so once true it is true
    in every state reached afterwards. *)
Theorem stop_is_monotonic (n : Z) (m : nat) (sched : list Action) s tr :
  run n m sched = Done s tr →
  stop (init n m) = false ∧
  stop s = stop_written (owner s) ∧
  (owner s = OLive → stop s = false) ∧
  (∀ a e s', step s a = Next e s' → stop s' ≠ stop s →
     a = AOwner ∧ owner s = ODtorStop ∧ e = EvSetStop ∧ stop s' = true) ∧
  (∀ sched' s' tr', run_from sched' s tr = Done s' tr' →
     stop s = true → stop s' = true).
Proof.
  intros Hrun. apply run_inv in Hrun as HI.
  pose proof (own_stop _ _ _ (inv_owner _ _ _ _ HI)) as Hs.
  split_and!; try done.
  - intros Ho. by rewrite Hs, Ho.
  - intros a e s' Hstep Hne. destruct a; step_inv Hstep; simpl in *; done.
  - intros sched' s' tr'. apply run_from_stop_mono.
Qed.

Lemma stop_is_monotonic_witness :
  stop demo_check_state = true ∧ stop demo_final_state = true.
Proof.
  destruct (stop_is_monotonic 1 1 (take 35 demo_sched)
              demo_check_state demo_check_trace eq_refl) as (_ & _ & _ & _ & H).
  split; [reflexivity|].
  apply (H (drop 35 demo_sched) demo_final_state demo_final_trace);
    reflexivity.
Defined.

Lemma wake_pred_spec s : wake_pred s = true ↔ stop s = true ∨ jobs s ≠ [].
Proof.
  unfold wake_pred. destruct (stop s), (jobs s); simpl; split; auto;
    try (intros [?|?]; done); try (intros _; by right).
Qed.

Lemma step_worker_lookup s a e s' i pc :
  step s a = Next e s' → workers s !! i = Some pc →
  ∃ pc', workers s' !! i = Some pc' ∧
    (pc' = pc ∨ a = AWorker i ∨ (pc = WWait ∧ pc' = WRelock)).
Proof.
  intros Hstep Hi.
  destruct a; step_inv Hstep; simpl; eauto;
    try (destruct (decide (i0 = i)) as [->|];
         [rewrite list_lookup_insert_eq by (by eapply lookup_lt_Some)
         |rewrite list_lookup_insert_ne by done]; simplify_eq; eauto 10; fail).
  - rewrite lookup_app_l by (by eapply lookup_lt_Some). eauto.
  - unfold notify_all. rewrite list_lookup_fmap, Hi. simpl.
    eexists; split; [done|]. destruct pc; simpl; auto.
  - unfold notify_one. destruct (notify_target _ _) as [w|] eqn:Ht; [|eauto].
    apply notify_target_Some in Ht.
    destruct (decide (w = i)) as [->|];
      [rewrite list_lookup_insert_eq by (by eapply lookup_lt_Some)
      |rewrite list_lookup_insert_ne by done]; simplify_eq; eauto 10.
Qed.

Lemma step_from_wait s a e s' i pc :
  step s a = Next e s' → workers s !! i = Some pc → in_wait pc = true →
  workers s' !! i = Some pc ∨
  (pc = WWait ∧ workers s' !! i = Some WRelock) ∨
  (pc = WRelock ∧ a = AWorker i ∧ workers s' !! i = Some WPred ∧
   mu s' = Some (TWorker i)) ∨
  (pc = WPred ∧ a = AWorker i ∧ wake_pred s = true ∧ workers s' !! i = Some WCheck) ∨
  (pc = WPred ∧ a = AWorker i ∧ wake_pred s = false ∧
   workers s' !! i = Some WWait ∧ mu s' = None).
Proof.
  intros Hstep Hi Hin.
  destruct (step_worker_lookup _ _ _ _ _ _ Hstep Hi) as (pc' & Hl' & [->|[->|[-> ->]]]);
    auto.
  pose proof (lookup_lt_Some _ _ _ Hi) as Hlt.
  simpl in Hstep. unfold worker_step in Hstep. rewrite Hi in Hstep.
  destruct pc; try done; break_match Hstep; inversion Hstep; subst; simpl;
    rewrite list_lookup_insert_eq by done; auto 10.
Qed.

(** C3: the wake condition.  The predicate a worker blocks on is
    [stop || !jobs.empty()]; it is evaluated under the mutex each time the
    worker is at the head of the wait loop, whether it arrives there from
    the lock of line 38 or after any wake-up (notified or spurious): a
    wake-up only leads to re-acquiring the mutex and to the predicate again.
    A worker leaves the Waiting state only by evaluating the predicate to
    true; a worker that finds it false stays in the Waiting state. *)
Theorem wake_condition_rechecked (s : State) (a : Action) (e : Event)
    (s' : State) (i : nat) :
  step s a = Next e s' →
  (wake_pred s = true ↔ stop s = true ∨ jobs s ≠ []) ∧
  (workers s !! i = Some WPred → a = AWorker i →
     if wake_pred s then workers s' !! i = Some WCheck
     else workers s' !! i = Some WWait ∧ mu s' = None) ∧
  (workers s !! i = Some WWait →
     workers s' !! i = Some WWait ∨ workers s' !! i = Some WRelock) ∧
  (workers s !! i = Some WRelock →
     workers s' !! i = Some WRelock ∨
     (a = AWorker i ∧ workers s' !! i = Some WPred ∧ mu s' = Some (TWorker i))) ∧
  (waiting_at s i → ¬ waiting_at s' i →
     a = AWorker i ∧ workers s !! i = Some WPred ∧ wake_pred s = true ∧
     workers s' !! i = Some WCheck) ∧
  (waiting_at s i → wake_pred s = false → waiting_at s' i).
Proof.
  intros Hstep.
  assert (∀ pc, workers s !! i = Some pc → in_wait pc = true →
            ¬ waiting_at s' i →
            a = AWorker i ∧ pc = WPred ∧ wake_pred s = true ∧
            workers s' !! i = Some WCheck) as Hleave.
  { intros pc Hi Hin Hnw.
    destruct (step_from_wait _ _ _ _ _ _ Hstep Hi Hin)
      as [H|[[-> H]|[(-> & _ & H & _)|[(-> & -> & ? & ?)|(-> & _ & _ & H & _)]]]];
      try done; exfalso; apply Hnw; eexists; split; try exact H; done. }
  split_and!.
  - apply wake_pred_spec.
  - intros Hi ->. simpl in Hstep. unfold worker_step in Hstep. rewrite Hi in Hstep.
    pose proof (lookup_lt_Some _ _ _ Hi) as Hlt.
    destruct (wake_pred s); inversion Hstep; subst; simpl;
      rewrite list_lookup_insert_eq by done; auto.
  - intros Hi. destruct (step_from_wait _ _ _ _ _ _ Hstep Hi eq_refl)
      as [H|[[_ H]|[(? & _)|[(? & _)|(? & _)]]]]; try done; auto.
  - intros Hi. destruct (step_from_wait _ _ _ _ _ _ Hstep Hi eq_refl)
      as [H|[[? _]|[(_ & ? & ? & ?)|[(? & _)|(? & _)]]]]; try done; auto.
  - intros (pc & Hi & Hin) Hnw.
    destruct (Hleave pc Hi Hin Hnw) as (? & -> & ? & ?). done.
  - intros (pc & Hi & Hin) Hfalse.
    destruct (step_from_wait _ _ _ _ _ _ Hstep Hi Hin)
      as [H|[[-> H]|[(-> & _ & H & _)|[(-> & -> & ? & ?)|(-> & _ & _ & H & _)]]]];
      try congruence; eexists; split; try exact H; done.
Qed.

Lemma wake_condition_rechecked_witness :
  workers demo_woken_state !! 0%nat = Some WWait ∨
  workers demo_woken_state !! 0%nat = Some WRelock.
Proof.
  destruct (wake_condition_rechecked demo_wait_state (AClient 0 0)
              (EvNotifyOne 0 (Some 0%nat)) demo_woken_state 0 eq_refl)
    as (_ & _ & H & _).
  apply H. reflexivity.
Defined.

(** The constructor run without interruption: [k] spawns, then the return. *)
Lemma ctor_run n k : ∀ ws tr i cs,
  (i + Z.of_nat k = n ∨ (k = 0%nat ∧ n ≤ i)) →
  run_from (replicate (S k) AOwner) (mkState false ws [] None (OCtor n i) cs) tr =
  Done (mkState false (ws ++ replicate k WLock) [] None OLive cs)
       (tr ++ (EvSpawn <$> seq (length ws) k) ++ [EvCtorReturn]).
Proof.
  induction k as [|k IH]; intros ws tr i cs Hi.
  - simpl. unfold owner_step. simpl.
    replace (i <? n) with false by (symmetry; apply Z.ltb_ge; lia).
    by rewrite app_nil_r.
  - change (replicate (S (S k)) AOwner) with (AOwner :: replicate (S k) AOwner).
    rewrite run_from_cons.
    cbv [step owner_step owner set_owner set_workers workers stop jobs mu clients].
    replace (i <? n) with true by (symmetry; apply Z.ltb_lt; lia).
    rewrite IH by lia. rewrite length_app, Nat.add_1_r, <- !app_assoc. done.
Qed.

(** C7: construction with [workerCount >= 1].  The constructor returns (it
    is never blocked, and run alone it takes [workerCount] spawns and the
    return); in every interleaving, at the moment it returns the vector
    holds exactly [workerCount] worker threads, each spawned before the
    return, the stop flag is false and the queue is empty. *)
Theorem constructor_spawns_workers (n : Z) (m : nat) (sched : list Action)
    s tr s' :
  1 ≤ n → run n m sched = Done s tr → step s AOwner = Next EvCtorReturn s' →
  (length (workers s') = Z.to_nat n ∧ stop s' = false ∧ jobs s' = [] ∧
   owner s' = OLive ∧
   owner_events (tr ++ [EvCtorReturn]) =
     (EvSpawn <$> seq 0 (Z.to_nat n)) ++ [EvCtorReturn]) ∧
  run n m (replicate (S (Z.to_nat n)) AOwner) =
    Done (mkState false (replicate (Z.to_nat n) WLock) [] None OLive
            (replicate m CIdle))
         ((EvSpawn <$> seq 0 (Z.to_nat n)) ++ [EvCtorReturn]).
Proof.
  intros Hn Hrun Hstep. split.
  - apply run_inv in Hrun as HI.
    pose proof (inv_step _ _ _ _ _ _ _ HI Hstep) as HI'.
    destruct HI as [_ _ _ [Hs _ _ Hc _ _] _ _ _ _ _ _].
    destruct HI' as [_ _ _ [_ _ _ Hc' _ He'] _ _ _ _ _ _].
    unfold CtorInv in *. simpl in Hstep. unfold owner_step in Hstep.
    destruct (owner s) eqn:Ho; break_match Hstep; inversion Hstep; subst;
      simpl in *.
    destruct Hc as (-> & ? & ? & Hlen & ? & ? & ? & ?).
    split_and!; done.
  - unfold run, init. rewrite ctor_run by lia. done.
Qed.

Lemma constructor_spawns_workers_witness :
  length (workers (set_owner OLive (mkState false [WLock] [] None (OCtor 1 1) [CIdle])))
  = 1%nat.
Proof.
  apply (constructor_spawns_workers 1 1 [AOwner]
           (mkState false [WLock] [] None (OCtor 1 1) [CIdle]) [EvSpawn 0]);
    [lia|reflexivity|reflexivity].
Defined.

Lemma notify_all_no_waiter ws i : notify_all ws !! i ≠ Some WWait.
Proof.
  unfold notify_all. rewrite list_lookup_fmap.
  destruct (ws !! i) as [pc|]; simpl; [|done]. by destruct pc.
Qed.

Lemma notify_all_wakes ws i :
  ws !! i = Some WWait → notify_all ws !! i = Some WRelock.
Proof. intros H. unfold notify_all. by rewrite list_lookup_fmap, H. Qed.

(** C5: shutdown, as run by the destructor.  The events of the owner are,
    in this order: the constructor's, entry of the destructor, acquisition
    of the mutex, [stop = true], release of the mutex, [notify_all], one
    join per worker in the order of the vector, return.  The flag is
    written with the mutex held by the owner; the mutex is no longer held
    by the owner when it notifies; the notification leaves no worker
    blocked; a join does not proceed before the joined worker has returned;
    when the destructor has returned every worker has returned. *)
Theorem shutdown_sequence (n : Z) (m : nat) (sched : list Action) s tr :
  run n m sched = Done s tr →
  owner_events tr = expected_events n (owner s) ∧
  (owner s = ODtorLock →
     step s AOwner =
       match mu s with
       | None => Next (EvAcquire TOwner) (set_owner ODtorStop (set_mu (Some TOwner) s))
       | Some _ => Disabled
       end) ∧
  (owner s = ODtorStop →
     mu s = Some TOwner ∧
     step s AOwner = Next EvSetStop (set_owner ODtorUnlock (set_stop true s))) ∧
  (owner s = ODtorUnlock →
     mu s = Some TOwner ∧ stop s = true ∧
     step s AOwner = Next (EvRelease TOwner) (set_owner ODtorNotify (set_mu None s))) ∧
  (owner s = ODtorNotify →
     mu s ≠ Some TOwner ∧ stop s = true ∧
     ∃ s', step s AOwner = Next EvNotifyAll s' ∧ owner s' = ODtorJoin 0 ∧
           (∀ i, workers s' !! i ≠ Some WWait) ∧
           (∀ i, workers s !! i = Some WWait → workers s' !! i = Some WRelock)) ∧
  (∀ k, owner s = ODtorJoin k →
     stop s = true ∧
     (∀ i, (i < k)%nat → workers s !! i = Some WStopped) ∧
     (workers s !! k = Some WStopped →
        step s AOwner = Next (EvJoin k) (set_owner (ODtorJoin (S k)) s)) ∧
     (∀ pc, workers s !! k = Some pc → pc ≠ WStopped → step s AOwner = Disabled) ∧
     (workers s !! k = None → step s AOwner = Next EvDtorEnd (set_owner ODone s))) ∧
  (owner s = ODone →
     all_stopped (workers s) ∧ length (workers s) = Z.to_nat n ∧
     owner_events tr =
       ctor_events n ++ dtor_events ++ (EvJoin <$> seq 0 (Z.to_nat n)) ++ [EvDtorEnd]).
Proof.
  intros Hrun. apply run_inv in Hrun as HI.
  destruct HI as [[_ _ Hlo] Hh _ [Hs _ _ Hc Hj He] _ _ _ _ _ _].
  unfold HolderInv, CtorInv in *.
  split_and!; try done.
  - intros Ho. simpl. unfold owner_step. by rewrite Ho.
  - intros Ho. rewrite Ho in *. split; [by apply Hlo|].
    simpl. unfold owner_step. by rewrite Ho.
  - intros Ho. rewrite Ho in *. split_and!; [by apply Hlo|done|].
    simpl. unfold owner_step. by rewrite Ho.
  - intros Ho. rewrite Ho in *. split_and!; try done.
    + intros Hmu. by rewrite Hmu in Hh.
    + eexists. split; [simpl; unfold owner_step; by rewrite Ho|]. simpl.
      split_and!; [done|apply notify_all_no_waiter|apply notify_all_wakes].
  - intros k Ho. rewrite Ho in *. destruct Hc as [Hlen Hk]. split_and!; try done.
    + intros i Hi. destruct (lookup_lt_is_Some_2 (workers s) i) as [pc Hpc]; [lia|].
      rewrite Hpc. f_equal. apply (Hj i); [done|]. by apply Nat.ltb_lt.
    + intros Hl. simpl. unfold owner_step. by rewrite Ho, Hl.
    + intros pc Hl Hne. simpl. unfold owner_step. rewrite Ho, Hl. by destruct pc.
    + intros Hl. simpl. unfold owner_step. by rewrite Ho, Hl.
  - intros Ho. rewrite Ho in *. split_and!; try done.
    intros i pc Hl. by apply (Hj i).
Qed.

Lemma shutdown_sequence_witness :
  all_stopped (workers demo_final_state) ∧
  owner_events demo_final_trace =
    [EvSpawn 0; EvCtorReturn; EvDtorBegin; EvAcquire TOwner; EvSetStop;
     EvRelease TOwner; EvNotifyAll; EvJoin 0; EvDtorEnd].
Proof.
  destruct (shutdown_sequence 1 1 demo_sched demo_final_state demo_final_trace
              eq_refl) as (_ & _ & _ & _ & _ & _ & H).
  destruct (H eq_refl) as (Hall & _ & Hev). split; [exact Hall|exact Hev].
Defined.

Lemma enqueue_run s tr c job pick :
  clients s !! c = Some CIdle → alive (owner s) = true → mu s = None →
  run_from (enqueue_by c job pick) s tr =
  Done (mkState (stop s) (notify_one (workers s) pick) (jobs s ++ [job]) None
          (owner s) (clients s))
       (tr ++ [EvCall c job; EvAcquire (TClient c); EvPush c job;
               EvRelease (TClient c);
               EvNotifyOne c (notify_target (workers s) pick)]).
Proof.
  intros Hc Ha Hmu. pose proof (lookup_lt_Some _ _ _ Hc) as Hlt.
  unfold enqueue_by.
  rewrite run_from_cons. cbn [step]. unfold call_step. rewrite Hc, Ha.
  rewrite run_from_cons. cbn [step]. unfold client_step. simpl.
  rewrite list_lookup_insert_eq by done. rewrite Hmu.
  repeat (unfold client_step at 1; simpl;
          rewrite list_lookup_insert_eq by (by rewrite ?length_insert)).
  unfold set_client, set_workers, set_mu, set_jobs, set_clients. simpl.
  rewrite !list_insert_insert_eq, <- !app_assoc. simpl.
  by rewrite (list_insert_id _ _ _ Hc).
Qed.

Lemma notify_one_spec ws pick :
  match notify_target ws pick with
  | Some i => ws !! i = Some WWait ∧ notify_one ws pick = <[i:=WRelock]> ws
  | None => (∀ i, ws !! i ≠ Some WWait) ∧ notify_one ws pick = ws
  end.
Proof.
  unfold notify_one. destruct (notify_target ws pick) as [i|] eqn:Ht.
  - split; [by eapply notify_target_Some|done].
  - split; [|done]. intros i Hi. apply elem_of_waiters in Hi.
    rewrite (notify_target_None _ _ Ht) in Hi. by apply elem_of_nil in Hi.
Qed.

(** C4: [enqueue] always succeeds.  No transition of a client is undefined
    and none tests the stop flag or fails; the only transition that can
    wait is the acquisition of the mutex.  The push is made with the mutex
    held by the caller and appends the job at the tail, so the length of
    the queue grows by exactly one; the notification is made after the
    mutex is released and unblocks exactly one blocked worker when there is
    one (no worker otherwise), never more.  From any reachable state where
    the mutex is free, a whole call runs to its return and appends the
    job, whatever the stop flag. *)
Theorem enqueue_always_succeeds (n : Z) (m : nat) (sched : list Action) s tr
    (c : nat) (job : Job) (pick : nat) :
  run n m sched = Done s tr →
  step s (ACall c job) ≠ Undefined ∧ step s (AClient c pick) ≠ Undefined ∧
  (clients s !! c = Some CIdle → alive (owner s) = true →
     step s (ACall c job) = Next (EvCall c job) (set_client c (CLock job) s)) ∧
  (clients s !! c = Some (CLock job) →
     step s (AClient c pick) =
       match mu s with
       | None => Next (EvAcquire (TClient c))
                      (set_client c (CPush job) (set_mu (Some (TClient c)) s))
       | Some _ => Disabled
       end) ∧
  (clients s !! c = Some (CPush job) →
     mu s = Some (TClient c) ∧
     ∃ s', step s (AClient c pick) = Next (EvPush c job) s' ∧
           jobs s' = jobs s ++ [job] ∧ length (jobs s') = S (length (jobs s)) ∧
           stop s' = stop s ∧ workers s' = workers s ∧ mu s' = mu s) ∧
  (clients s !! c = Some CUnlock →
     mu s = Some (TClient c) ∧
     ∃ s', step s (AClient c pick) = Next (EvRelease (TClient c)) s' ∧
           mu s' = None ∧ jobs s' = jobs s ∧ workers s' = workers s) ∧
  (clients s !! c = Some CNotify →
     mu s ≠ Some (TClient c) ∧
     ∃ s' w, step s (AClient c pick) = Next (EvNotifyOne c w) s' ∧
             jobs s' = jobs s ∧ stop s' = stop s ∧ clients s' !! c = Some CIdle ∧
             match w with
             | Some i => workers s !! i = Some WWait ∧
                         workers s' = <[i:=WRelock]> (workers s)
             | None => (∀ i, workers s !! i ≠ Some WWait) ∧ workers s' = workers s
             end) ∧
  (clients s !! c = Some CIdle → alive (owner s) = true → mu s = None →
     ∃ s' w, run_from (enqueue_by c job pick) s tr =
               Done s' (tr ++ [EvCall c job; EvAcquire (TClient c); EvPush c job;
                               EvRelease (TClient c); EvNotifyOne c w]) ∧
             jobs s' = jobs s ++ [job] ∧ stop s' = stop s ∧
             clients s' !! c = Some CIdle ∧ mu s' = None).
Proof.
  intros Hrun. apply run_inv in Hrun as HI.
  destruct HI as [[_ Hlc _] Hh _ _ _ _ _ _ _ _]. unfold HolderInv in Hh.
  split_and!.
  - simpl. unfold call_step. intros H. break_match H.
  - simpl. unfold client_step. intros H. break_match H.
  - intros Hc Ha. simpl. unfold call_step. by rewrite Hc, Ha.
  - intros Hc. simpl. unfold client_step. by rewrite Hc.
  - intros Hc. split; [by apply (Hlc c _ Hc)|].
    eexists. split; [simpl; unfold client_step; by rewrite Hc|]. simpl.
    split_and!; try done. rewrite length_app. simpl. lia.
  - intros Hc. split; [by apply (Hlc c _ Hc)|].
    eexists. split; [simpl; unfold client_step; by rewrite Hc|]. done.
  - intros Hc. split.
    + intros Hmu. rewrite Hmu in Hh. destruct Hh as (pc & Hpc & Hho).
      rewrite Hc in Hpc. by simplify_eq.
    + eexists _, _. split; [simpl; unfold client_step; by rewrite Hc|]. simpl.
      split_and!; try done.
      * apply list_lookup_insert_eq. by eapply lookup_lt_Some.
      * apply notify_one_spec.
  - intros Hc Ha Hmu. eexists _, _. split; [by apply enqueue_run|]. done.
Qed.

Lemma enqueue_always_succeeds_witness :
  stop late_state = true ∧
  ∃ s' w, run_from (enqueue_by 0 9%nat 0) late_state late_trace =
            Done s' (late_trace ++
                     [EvCall 0 9%nat; EvAcquire (TClient 0); EvPush 0 9%nat;
                      EvRelease (TClient 0); EvNotifyOne 0 w]) ∧
          jobs s' = jobs late_state ++ [9%nat] ∧
          stop s' = stop late_state ∧
          clients s' !! 0%nat = Some CIdle ∧ mu s' = None.
Proof.
  split; [reflexivity|].
  destruct (enqueue_always_succeeds 1 1 late_sched
              late_state late_trace 0 9%nat 0 eq_refl)
    as (_ & _ & _ & _ & _ & _ & _ & H).
  apply H; reflexivity.
Defined.

Lemma exit_test_spec s : exit_test s = true ↔ stop s = true ∧ jobs s = [].
Proof.
  unfold exit_test. destruct (stop s), (jobs s); simpl; split; try done;
    by intros [? ?].
Qed.

Lemma step_to_stopped s a e s' i :
  step s a = Next e s' → workers s' !! i = Some WStopped →
  workers s !! i = Some WStopped ∨
  (a = AWorker i ∧ workers s !! i = Some WCheck ∧ exit_test s = true ∧
   e = EvExit i ∧ jobs s' = jobs s).
Proof.
  intros Hstep Hi.
  destruct a; step_inv Hstep; simpl in *; norm_lookup; auto;
    try match goal with
        | H : _ = wake _ |- _ => apply wake_eq in H; [subst|done..]
        end; auto 10.
Qed.

Lemma step_stopped_stays s a e s' i :
  step s a = Next e s' → workers s !! i = Some WStopped →
  workers s' !! i = Some WStopped.
Proof.
  intros Hstep Hi.
  destruct (step_worker_lookup _ _ _ _ _ _ Hstep Hi) as (pc' & Hl' & [->|[->|[? _]]]);
    try done.
  simpl in Hstep. unfold worker_step in Hstep. by rewrite Hi in Hstep.
Qed.

(** When every worker has returned, and there is at least one: the jobs
    pushed before [stop = true] have all been removed, in order, and every
    removed job has been begun and completed once by its remover. *)
Lemma drained n m s tr :
  Inv n m s tr → workers s ≠ [] → all_stopped (workers s) →
  (snd <$> pushes (before_stop tr)) `prefix_of` (snd <$> pops tr) ∧
  starts tr ≡ₚ pops tr ∧ finishes tr ≡ₚ pops tr.
Proof.
  intros [_ _ _ _ [Hf Hp Hs _] Hd _ _ _ _] Hne Hall.
  assert (finishes tr ≡ₚ starts tr) as Hfs.
  { rewrite Hs. unfold running. rewrite tagged_all_stopped by done.
    by rewrite app_nil_r. }
  assert (starts tr ≡ₚ pops tr) as Hsp.
  { rewrite Hp. unfold holding. rewrite tagged_all_stopped by done.
    by rewrite app_nil_r. }
  split_and!; [|done|by rewrite Hfs].
  destruct (workers s) as [|pc ws] eqn:Hw; [done|].
  assert (pc = WStopped) as -> by (by apply (Hall 0%nat)).
  destruct (Hd 0%nat) as [_ Hlen]; [by rewrite Hw|].
  assert ((snd <$> pushes (before_stop tr)) `prefix_of` (snd <$> pushes tr)) as H1.
  { apply fmap_prefix_of, pushes_before_stop_prefix. }
  assert ((snd <$> pops tr) `prefix_of` (snd <$> pushes tr)) as H2.
  { rewrite <- Hf. by apply prefix_app_r. }
  destruct (prefix_weak_total _ _ _ H1 H2) as [|H3]; [done|].
  apply prefix_length_eq in H3; [by rewrite H3|].
  rewrite !length_fmap. done.
Qed.

(** C2: a worker returns from its loop exactly when, at line 44, it finds
    the stop flag true and the queue empty.  So the queue is empty at the
    moment a worker returns, a returned worker makes no further transition,
    and when the last worker has returned every job pushed before
    [stop = true] has been removed from the queue and executed. *)
Theorem worker_stops_iff_drained (n : Z) (m : nat) (sched : list Action) s tr
    (a : Action) (e : Event) (s' : State) (i : nat) :
  run n m sched = Done s tr → step s a = Next e s' →
  ((workers s' !! i = Some WStopped ∧ workers s !! i ≠ Some WStopped) ↔
   (a = AWorker i ∧ workers s !! i = Some WCheck ∧ stop s = true ∧ jobs s = [])) ∧
  (workers s' !! i = Some WStopped → workers s !! i ≠ Some WStopped →
     jobs s' = [] ∧ e = EvExit i) ∧
  (workers s !! i = Some WStopped → workers s' !! i = Some WStopped) ∧
  (workers s ≠ [] → all_stopped (workers s) →
     ∃ late, snd <$> pops tr = (snd <$> pushes (before_stop tr)) ++ late ∧
             starts tr ≡ₚ pops tr ∧ finishes tr ≡ₚ pops tr).
Proof.
  intros Hrun Hstep. apply run_inv in Hrun as HI. split_and!.
  - split.
    + intros [Hi' Hi].
      destruct (step_to_stopped _ _ _ _ _ Hstep Hi')
        as [?|(-> & ? & Hex%exit_test_spec & _)]; [done|].
      by destruct Hex.
    + intros (-> & Hi & Hst & Hq). split; [|by rewrite Hi].
      simpl in Hstep. unfold worker_step in Hstep. rewrite Hi in Hstep.
      replace (exit_test s) with true in Hstep
        by (symmetry; by apply exit_test_spec).
      inversion Hstep; subst. simpl.
      apply list_lookup_insert_eq. by eapply lookup_lt_Some.
  - intros Hi' Hi.
    destruct (step_to_stopped _ _ _ _ _ Hstep Hi')
      as [?|(-> & ? & Hex%exit_test_spec & -> & Hj)]; [done|].
    destruct Hex as [_ Hq]. by rewrite Hj.
  - by eapply step_stopped_stays.
  - intros Hne Hall. destruct (drained _ _ _ _ HI Hne Hall) as ([late Hl] & ? & ?).
    by exists late.
Qed.

Lemma worker_stops_iff_drained_witness :
  jobs demo_final_state = [] ∧
  ∃ late, snd <$> pops demo_check_trace =
          (snd <$> pushes (before_stop demo_check_trace)) ++ late.
Proof.
  destruct (worker_stops_iff_drained 1 1 (take 35 demo_sched)
              demo_check_state demo_check_trace (AWorker 0) (EvExit 0)
              (set_worker 0 WStopped (set_mu None demo_check_state)) 0
              eq_refl eq_refl) as (_ & H & _ & _).
  destruct (H eq_refl) as [Hq _]; [discriminate|].
  split; [exact Hq|].
  by exists [].
Defined.

(** C1, as the code has it: no loss, no duplication, for a pool with at
    least one worker.  When the destructor has returned: the jobs removed
    from the queue are the jobs pushed before the destructor was entered,
    in their order, followed by jobs pushed later ([late]); together with
    what is left in the queue they are exactly the pushed jobs, so no push
    is removed twice and none made before shutdown is left; every removed
    job was begun once and completed once by the worker that removed it.
    When every push precedes the entry of the destructor, the executed
    jobs are exactly the pushed jobs and the queue is empty. *)
Theorem no_loss_no_duplication (n : Z) (m : nat) (sched : list Action) s tr :
  1 ≤ n → run n m sched = Done s tr → owner s = ODone →
  ∃ late,
    snd <$> pops tr = (snd <$> pushes (before_shutdown tr)) ++ late ∧
    ((snd <$> pushes (before_shutdown tr)) ++ late) ++ jobs s = snd <$> pushes tr ∧
    starts tr ≡ₚ pops tr ∧ finishes tr ≡ₚ pops tr ∧
    snd <$> finishes tr ≡ₚ (snd <$> pushes (before_shutdown tr)) ++ late ∧
    (pushes (before_shutdown tr) = pushes tr →
       snd <$> finishes tr ≡ₚ snd <$> pushes tr ∧ jobs s = []).
Proof.
  intros Hn Hrun Ho. apply run_inv in Hrun as HI.
  pose proof HI as [_ _ _ [_ _ _ Hc Hj _] [Hf _ _ _] _ _ Hsh _ _].
  unfold CtorInv in Hc. rewrite Ho in Hc, Hj.
  assert (all_stopped (workers s)) as Hall.
  { intros i pc Hi. by apply (Hj i). }
  assert (workers s ≠ []) as Hne.
  { intros Hnil. rewrite Hnil in Hc. simpl in Hc. lia. }
  destruct (drained _ _ _ _ HI Hne Hall) as (Hpre & Hsp & Hfp).
  assert ((snd <$> pushes (before_shutdown tr)) `prefix_of` (snd <$> pops tr))
    as [late Hlate].
  { etrans; [|exact Hpre]. by apply fmap_prefix_of, omap_prefix. }
  exists late. rewrite <- Hlate. split_and!; try done.
  - by rewrite Hfp.
  - intros Hall_before. rewrite Hall_before in Hlate.
    rewrite Hlate, <- app_assoc in Hf.
    rewrite <- (app_nil_r (snd <$> pushes tr)) in Hf at 2.
    apply app_inv_head in Hf. apply app_eq_nil in Hf as [-> ->].
    rewrite app_nil_r in Hlate. rewrite Hfp, Hlate. done.
Qed.

Lemma no_loss_no_duplication_witness :
  owner main_state = ODone ∧
  snd <$> pushes main_trace = seq 0 10 ∧
  snd <$> finishes main_trace ≡ₚ snd <$> pushes main_trace.
Proof.
  split; [reflexivity|]. split; [vm_compute; reflexivity|].
  assert (run 2 1 main_sched = Done main_state main_trace) as Hrun
    by (vm_compute; reflexivity).
  destruct (no_loss_no_duplication 2 1 main_sched main_state main_trace
              ltac:(lia) Hrun eq_refl)
    as (late & _ & _ & _ & _ & _ & H).
  apply H. vm_compute. reflexivity.
Defined.

Lemma step_queue s a e s' :
  step s a = Next e s' →
  match e with
  | EvPush _ job => jobs s' = jobs s ++ [job]
  | EvPop _ job => jobs s = job :: jobs s'
  | _ => jobs s' = jobs s
  end.
Proof. intros Hstep. destruct a; step_inv Hstep; done. Qed.

Lemma workers_le_1 n m s tr : Inv n m s tr → n ≤ 1 → (length (workers s) ≤ 1)%nat.
Proof.
  intros [_ _ _ [_ _ _ Hc _ _] _ _ _ _ _ _] Hn. unfold CtorInv in Hc.
  destruct (owner s); lia.
Qed.

(** C8, as the code has it: the queue is strict FIFO.  A push appends at
    the tail, a removal takes the head and nothing else changes the queue,
    so the jobs are removed in the order of their pushes; the pushes of one
    client are in the order of its calls of [enqueue], so the jobs of one
    client are removed in the order it submitted them.  With at most one
    worker the jobs also begin executing in the order of their removal. *)
Theorem fifo_dequeue_order (n : Z) (m : nat) (sched : list Action) s tr :
  run n m sched = Done s tr →
  (∀ a e s', step s a = Next e s' →
     match e with
     | EvPush _ job => jobs s' = jobs s ++ [job]
     | EvPop _ job => jobs s = job :: jobs s'
     | _ => jobs s' = jobs s
     end) ∧
  (snd <$> pops tr) ++ jobs s = snd <$> pushes tr ∧
  (∀ c, by_client c (pushes tr) ++ pending (clients s !! c) = by_client c (calls tr)) ∧
  (∀ c, by_client c (take (length (pops tr)) (pushes tr))
        `prefix_of` by_client c (calls tr)) ∧
  (n ≤ 1 → (snd <$> starts tr) `prefix_of` (snd <$> pops tr)).
Proof.
  intros Hrun. apply run_inv in Hrun as HI.
  pose proof HI as [_ _ _ _ [Hf _ _ Hc] _ Hsg _ _ _].
  split_and!; try done.
  - intros a e s'. apply step_queue.
  - intros c. etrans.
    + apply omap_prefix. apply prefix_take.
    + rewrite <- Hc. by apply prefix_app_r.
  - intros Hn. rewrite Hsg by (by eapply workers_le_1).
    rewrite fmap_app. by apply prefix_app_r.
Qed.

Lemma fifo_dequeue_order_witness :
  (snd <$> starts demo_final_trace) `prefix_of` (snd <$> pops demo_final_trace).
Proof.
  destruct (fifo_dequeue_order 1 1 demo_sched demo_final_state demo_final_trace
              eq_refl) as (_ & _ & _ & _ & H).
  apply H. lia.
Defined.

(** C8, as stated, fails: with two workers the jobs of a single client do
    not begin executing in the order of their submission. *)
Lemma execution_order_counterexample :
  run 2 1 overtake_sched = Done overtake_state overtake_trace ∧
  by_client 0 (calls overtake_trace) = [7; 8]%nat ∧
  snd <$> pops overtake_trace = [7; 8]%nat ∧
  snd <$> starts overtake_trace = [8; 7]%nat ∧
  ¬ (snd <$> starts overtake_trace) `prefix_of` by_client 0 (calls overtake_trace).
Proof.
  split_and!; try reflexivity.
  intros [k Hk]. vm_compute in Hk. discriminate.
Qed.

(** The destructor of a pool without workers, run without interruption. *)
Lemma dtor_run_no_workers s tr :
  owner s = OLive → mu s = None → workers s = [] →
  run_from (replicate 6 AOwner) s tr =
  Done (mkState true [] (jobs s) None ODone (clients s))
       (tr ++ dtor_events ++ [EvDtorEnd]).
Proof.
  intros Ho Hmu Hw. destruct s as [st ws q mx o cs]. simpl in *. subst.
  simpl. by rewrite <- !app_assoc.
Qed.

(** C10: the constructor does not validate its argument.  With
    [numOfWorkers <= 0] the loop of line 65 is not entered: the constructor
    returns at once with an empty vector.  Such a pool accepts calls of
    [enqueue], which append to the queue; no job is ever removed, begun or
    completed, so the queue holds every pushed job; and the destructor
    returns, leaving the queue as it is. *)
Theorem zero_workers_never_execute (n : Z) (m : nat) (sched : list Action) s tr :
  n ≤ 0 → run n m sched = Done s tr →
  run n m [AOwner] =
    Done (mkState false [] [] None OLive (replicate m CIdle)) [EvCtorReturn] ∧
  workers s = [] ∧
  pops tr = [] ∧ starts tr = [] ∧ finishes tr = [] ∧
  jobs s = snd <$> pushes tr ∧
  (∀ c job pick,
     clients s !! c = Some CIdle → alive (owner s) = true → mu s = None →
     ∃ s' w, run_from (enqueue_by c job pick) s tr =
               Done s' (tr ++ [EvCall c job; EvAcquire (TClient c); EvPush c job;
                               EvRelease (TClient c); EvNotifyOne c w]) ∧
             jobs s' = jobs s ++ [job] ∧ workers s' = [] ∧ w = None) ∧
  (owner s = OLive → mu s = None →
     run_from (replicate 6 AOwner) s tr =
       Done (mkState true [] (jobs s) None ODone (clients s))
            (tr ++ dtor_events ++ [EvDtorEnd])).
Proof.
  intros Hn Hrun. apply run_inv in Hrun as HI.
  pose proof HI as [_ _ _ [_ _ _ Hc _ _] [Hf _ _ _] _ _ _ Hnw _].
  assert (workers s = []) as Hw.
  { apply length_zero_iff_nil. unfold CtorInv in Hc. destruct (owner s); lia. }
  destruct (Hnw Hw) as (Hp & Hs & Hfi).
  split_and!; try done.
  - unfold run, init. simpl. unfold owner_step. simpl.
    by replace (0 <? n) with false by (symmetry; apply Z.ltb_ge; lia).
  - rewrite <- Hf, Hp. done.
  - intros c job pick Hc' Ha Hmu. eexists _, _.
    split; [by apply enqueue_run|]. simpl. rewrite Hw. done.
  - intros Ho Hmu. by apply dtor_run_no_workers.
Qed.

Lemma zero_workers_never_execute_witness :
  owner zero_state = ODone ∧ jobs zero_state = [7%nat] ∧
  starts zero_trace = [] ∧ finishes zero_trace = [].
Proof.
  destruct (zero_workers_never_execute 0 1 zero_sched zero_state zero_trace
              ltac:(lia) eq_refl) as (_ & _ & _ & Hs & Hf & _).
  split_and!; [reflexivity|reflexivity|exact Hs|exact Hf].
Defined.

(** C1, as stated, fails: [ThreadPool pool(0)] accepts job 7 before the
    destructor is entered, the destructor returns, and job 7 was never
    executed. *)
Lemma no_loss_counterexample :
  run 0 1 zero_sched = Done zero_state zero_trace ∧
  owner zero_state = ODone ∧
  snd <$> pushes (before_shutdown zero_trace) = [7%nat] ∧
  finishes zero_trace = [] ∧
  ¬ ∃ late, snd <$> finishes zero_trace
            ≡ₚ (snd <$> pushes (before_shutdown zero_trace)) ++ late.
Proof.
  split_and!; try reflexivity.
  intros [late Hp]. vm_compute in Hp. by apply Permutation_nil_cons in Hp.
Qed.

(** * Further properties of the pool *)

(** X1: mutual exclusion.  In every reachable state the threads inside a
    critical section are exactly the holder of the mutex, so two distinct
    threads (workers, clients, the owner) are never inside critical
    sections at the same time. *)
Theorem mutual_exclusion (n : Z) (m : nat) (sched : list Action) s tr :
  run n m sched = Done s tr →
  (∀ t, in_critical s t ↔ mu s = Some t) ∧
  (∀ t1 t2, in_critical s t1 → in_critical s t2 → t1 = t2).
Proof.
  intros Hrun. apply run_inv in Hrun as HI.
  destruct HI as [[Hw Hc Ho] Hh _ _ _ _ _ _ _ _]. unfold HolderInv in Hh.
  assert (∀ t, in_critical s t ↔ mu s = Some t) as Hiff.
  { intros t. split.
    - destruct t as [|i|c]; simpl.
      + apply Ho.
      + intros (pc & Hl & Hpc). by eapply Hw.
      + intros (pc & Hl & Hpc). by eapply Hc.
    - intros Hmu. rewrite Hmu in Hh. by destruct t. }
  split; [done|]. intros t1 t2 H1%Hiff H2%Hiff. congruence.
Qed.

Lemma mutual_exclusion_witness :
  in_critical demo_fetch_state (TWorker 0) ∧ ¬ in_critical demo_fetch_state TOwner.
Proof.
  destruct (mutual_exclusion 1 1 (take 22 demo_sched) demo_fetch_state
              demo_fetch_trace eq_refl) as [Hiff Hex].
  split; [apply Hiff; reflexivity|].
  intros Ho. specialize (Hex _ _ Ho (proj2 (Hiff (TWorker 0)) eq_refl)).
  discriminate.
Defined.

Lemma notify_one_keeps ws pick i pc :
  ws !! i = Some pc → pc ≠ WWait → notify_one ws pick !! i = Some pc.
Proof.
  intros Hi Hne. unfold notify_one.
  destruct (notify_target ws pick) as [w|] eqn:Ht; [|done].
  apply notify_target_Some in Ht.
  rewrite list_lookup_insert_ne; [done|]. intros ->. congruence.
Qed.

(** X2: a job runs outside the lock (line 52 precedes line 55).  In every
    reachable state a worker that is calling or running a job does not hold
    the mutex, and if the mutex is free a whole call of [enqueue] by an idle
    client runs to its return while the job is still running. *)
Theorem enqueue_during_job (n : Z) (m : nat) (sched : list Action) s tr
    (i : nat) (job : Job) (c : nat) (job' : Job) (pick : nat) :
  run n m sched = Done s tr → workers s !! i = Some (WInJob job) →
  mu s ≠ Some (TWorker i) ∧
  (clients s !! c = Some CIdle → alive (owner s) = true → mu s = None →
   ∃ s' tr', run_from (enqueue_by c job' pick) s tr = Done s' tr' ∧
             jobs s' = jobs s ++ [job'] ∧
             workers s' !! i = Some (WInJob job)).
Proof.
  intros Hrun Hi. apply run_inv in Hrun as HI.
  destruct HI as [_ Hh _ _ _ _ _ _ _ _]. unfold HolderInv in Hh. split.
  - intros Hmu. rewrite Hmu in Hh. destruct Hh as (pc & Hpc & Hho).
    rewrite Hi in Hpc. by simplify_eq.
  - intros Hc Ha Hmu. eexists _, _. split; [by apply enqueue_run|]. simpl.
    split; [done|]. by apply notify_one_keeps.
Qed.

Lemma enqueue_during_job_witness :
  ∃ s' tr', run_from (enqueue_by 0 9%nat 0) demo_job_state demo_job_trace
            = Done s' tr' ∧
            jobs s' = jobs demo_job_state ++ [9%nat] ∧
            workers s' !! 0%nat = Some (WInJob 7%nat).
Proof.
  destruct (enqueue_during_job 1 1 (take 25 demo_sched) demo_job_state
              demo_job_trace 0 7%nat 0 9%nat 0 eq_refl eq_refl) as [_ H].
  apply H; reflexivity.
Defined.

(** X3: at most once, in every state.  The jobs begun so far are, counted
    with multiplicity, among the jobs removed from the queue, and these are
    among the jobs pushed: the pool never runs a job that was not
    submitted, nor a submitted job more often than it was submitted. *)
Theorem never_runs_unsubmitted (n : Z) (m : nat) (sched : list Action) s tr :
  run n m sched = Done s tr →
  finishes tr ⊆+ starts tr ∧ starts tr ⊆+ pops tr ∧
  (snd <$> pops tr) `prefix_of` (snd <$> pushes tr) ∧
  (snd <$> starts tr) ⊆+ (snd <$> pushes tr).
Proof.
  intros Hrun. apply run_inv in Hrun as HI.
  destruct HI as [_ _ _ _ [Hf Hp Hs _] _ _ _ _ _].
  assert (starts tr ⊆+ pops tr) as Hsp.
  { rewrite Hp. by apply submseteq_inserts_r. }
  assert ((snd <$> pops tr) `prefix_of` (snd <$> pushes tr)) as Hpre.
  { rewrite <- Hf. by apply prefix_app_r. }
  split_and!; try done.
  - rewrite Hs. by apply submseteq_inserts_r.
  - etrans; [by apply fmap_submseteq|].
    destruct Hpre as [k ->]. by apply submseteq_inserts_r.
Qed.

Lemma never_runs_unsubmitted_witness :
  (snd <$> starts demo_job_trace) ⊆+ (snd <$> pushes demo_job_trace).
Proof.
  destruct (never_runs_unsubmitted 1 1 (take 25 demo_sched) demo_job_state
              demo_job_trace eq_refl) as (_ & _ & _ & H).
  exact H.
Defined.

Lemma step_past_ctor s a e s' :
  step s a = Next e s' → in_ctor (owner s) = false → in_ctor (owner s') = false.
Proof. intros Hstep. destruct a; step_inv Hstep; done. Qed.

Lemma run_from_past_ctor sched s tr s' tr' :
  run_from sched s tr = Done s' tr' →
  in_ctor (owner s) = false → in_ctor (owner s') = false.
Proof.
  intros Hrun Hs.
  apply (run_from_invariant (λ s _, in_ctor (owner s) = false)) in Hrun; [done| |done].
  intros. by eapply step_past_ctor.
Qed.

Lemma past_ctor_length n m s tr :
  Inv n m s tr → in_ctor (owner s) = false → length (workers s) = Z.to_nat n.
Proof.
  intros [_ _ _ [_ _ _ Hc _ _] _ _ _ _ _ _] Ho. unfold CtorInv in Hc.
  destruct (owner s); try done. by destruct Hc.
Qed.

(** X4: the worker set is fixed.  Once the constructor has returned the
    vector holds [numOfWorkers] threads (none for a negative argument) and
    no later transition of any thread resizes it; and as long as the stop
    flag is false no worker has returned from its loop. *)
Theorem worker_set_fixed (n : Z) (m : nat) (sched : list Action) s tr :
  run n m sched = Done s tr →
  (stop s = false → ∀ i, workers s !! i ≠ Some WStopped) ∧
  (in_ctor (owner s) = false →
     length (workers s) = Z.to_nat n ∧
     ∀ sched' s' tr', run_from sched' s tr = Done s' tr' →
                      length (workers s') = length (workers s)).
Proof.
  intros Hrun. apply run_inv in Hrun as HI. split.
  - intros Hst i Hi. destruct (inv_drain _ _ _ _ HI i Hi) as [Hst' _]. congruence.
  - intros Ho. pose proof (past_ctor_length _ _ _ _ HI Ho) as Hlen.
    split; [done|]. intros sched' s' tr' Hrun'. rewrite Hlen.
    eapply past_ctor_length.
    + by eapply run_from_inv.
    + by eapply run_from_past_ctor.
Qed.

Lemma worker_set_fixed_witness :
  length (workers demo_final_state) = length (workers demo_job_state).
Proof.
  destruct (worker_set_fixed 1 1 (take 25 demo_sched) demo_job_state
              demo_job_trace eq_refl) as [_ H].
  destruct (H eq_refl) as [_ H'].
  apply (H' (drop 25 demo_sched) demo_final_state demo_final_trace).
  vm_compute. reflexivity.
Defined.

Lemma retired_step s0 tr0 s tr a e s' :
  Retired s0 tr0 s tr → step s a = Next e s' → Retired s0 tr0 s' (tr ++ [e]).
Proof.
  intros (Hall & Ho & Hp & Hs & Hf & late & Hl & Hj) Hstep.
  assert (∀ i pc, workers s !! i = Some pc → worker_step i s = Disabled) as Hdis.
  { intros i pc Hi. unfold worker_step. rewrite Hi. by rewrite (Hall i pc Hi). }
  destruct a; simpl in Hstep.
  - (* owner *)
    unfold owner_step in Hstep. destruct (owner s) eqn:Hos; try done;
      break_match Hstep; inversion Hstep; subst; clear Hstep;
      (split_and!; [|done|trace_simpl; try done..|exists late; trace_simpl; done]);
      simpl; try done.
    intros i pc (pc0 & Hi & ->)%notify_all_lookup.
    by rewrite (Hall i pc0 Hi).
  - (* worker: it has returned *)
    unfold worker_step in Hstep. destruct (workers s !! i) as [pc|] eqn:Hi; [|done].
    rewrite (Hall i pc Hi) in Hstep. done.
  - unfold spurious_step in Hstep. destruct (workers s !! i) as [pc|] eqn:Hi; [|done].
    rewrite (Hall i pc Hi) in Hstep. done.
  - step_inv Hstep. split_and!; try done; [trace_simpl; done..|].
    exists late. trace_simpl. done.
  - step_inv Hstep;
      (split_and!; [|done|trace_simpl; try done..|]); simpl; try done.
    + exists late. trace_simpl. done.
    + exists (late ++ [(c, job)]). unfold pushes in *. rewrite omap_snoc. simpl.
      rewrite Hl, Hj, fmap_app, !app_assoc. done.
    + exists late. trace_simpl. done.
    + intros i pc Hi. apply notify_one_lookup in Hi as [Hi|[Hi _]].
      * by apply (Hall i).
      * by pose proof (Hall i _ Hi).
    + exists late. trace_simpl. done.
Qed.

(** X5: submissions after the workers have exited are accepted and never
    run.  From a state in which the constructor has returned and every
    worker has returned from its loop, along every continuation the
    removed, begun and completed jobs stay what they were, and the queue is
    the old queue followed by the jobs pushed since. *)
Theorem late_jobs_never_run s tr (sched : list Action) s' tr' :
  all_stopped (workers s) → in_ctor (owner s) = false →
  run_from sched s tr = Done s' tr' →
  all_stopped (workers s') ∧
  pops tr' = pops tr ∧ starts tr' = starts tr ∧ finishes tr' = finishes tr ∧
  ∃ late, pushes tr' = pushes tr ++ late ∧ jobs s' = jobs s ++ (snd <$> late).
Proof.
  intros Hall Ho Hrun.
  apply (run_from_invariant (Retired s tr)) in Hrun.
  - destruct Hrun as (? & _ & ? & ? & ? & ?). done.
  - apply retired_step.
  - split_and!; try done. exists []. by rewrite !app_nil_r.
Qed.

Lemma late_jobs_never_run_witness :
  let r := run_from (enqueue_by 0 9%nat 0) demo_exit_state demo_exit_trace in
  jobs (final_state r) = [9%nat] ∧
  starts (final_trace r) = starts demo_exit_trace.
Proof.
  intros r.
  destruct (late_jobs_never_run demo_exit_state demo_exit_trace
              (enqueue_by 0 9%nat 0) (final_state r) (final_trace r))
    as (_ & _ & Hs & _ & _).
  - intros [|i] pc Hi; simpl in Hi; [by simplify_eq|done].
  - reflexivity.
  - reflexivity.
  - split; [reflexivity|exact Hs].
Defined.

(** ** Each worker runs its jobs one at a time *)

Lemma by_worker_snoc i l i' job :
  by_worker i (l ++ [(i', job)]) =
  by_worker i l ++ (if (i' =? i)%nat then [job] else []).
Proof. unfold by_worker. rewrite omap_snoc. simpl. by destruct (i' =? i)%nat. Qed.

Lemma lookup_snoc_quiet {B} (g : option WorkerPc → B) ws pc i :
  g (Some pc) = g None → g ((ws ++ [pc]) !! i) = g (ws !! i).
Proof.
  intros Hg. destruct (decide (i < length ws)%nat) as [Hlt|Hge].
  - by rewrite lookup_app_l.
  - rewrite lookup_app_r by lia. rewrite (lookup_ge_None_2 ws i) by lia.
    destruct (i - length ws)%nat; simpl; [done|]. by rewrite lookup_nil.
Qed.

Lemma lookup_notify_all_quiet {B} (g : option WorkerPc → B) ws i :
  g (Some WRelock) = g (Some WWait) → g (notify_all ws !! i) = g (ws !! i).
Proof.
  intros Hg. unfold notify_all. rewrite list_lookup_fmap.
  destruct (ws !! i) as [pc|]; simpl; [|done]. by destruct pc.
Qed.

Lemma lookup_notify_one_quiet {B} (g : option WorkerPc → B) ws pick i :
  g (Some WRelock) = g (Some WWait) → g (notify_one ws pick !! i) = g (ws !! i).
Proof.
  intros Hg. unfold notify_one.
  destruct (notify_target ws pick) as [w|] eqn:Ht; [|done].
  apply notify_target_Some in Ht.
  destruct (decide (w = i)) as [->|].
  - rewrite list_lookup_insert_eq by (by eapply lookup_lt_Some). by rewrite Ht.
  - by rewrite list_lookup_insert_ne.
Qed.

Lemma worker_seq_inv_init n m : WorkerSeqInv (init n m) [].
Proof. by intros i. Qed.

Lemma worker_seq_inv_step s tr a e s' :
  WorkerSeqInv s tr → step s a = Next e s' → WorkerSeqInv s' (tr ++ [e]).
Proof.
  intros IH Hstep i0. destruct (IH i0) as [IHp IHs].
  destruct a; step_inv Hstep; unfold pops, starts, finishes in *;
    rewrite ?omap_snoc; simpl; rewrite ?app_nil_r, ?by_worker_snoc; try done;
    rewrite ?(lookup_snoc_quiet held_at), ?(lookup_snoc_quiet running_at),
      ?(lookup_notify_all_quiet held_at), ?(lookup_notify_all_quiet running_at),
      ?(lookup_notify_one_quiet held_at), ?(lookup_notify_one_quiet running_at)
      by done;
    try done;
    (destruct (decide (i = i0)) as [->|Hne];
     [ rewrite ?Nat.eqb_refl;
       rewrite !list_lookup_insert_eq by (by eapply lookup_lt_Some);
       match goal with H : workers s !! i0 = Some _ |- _ => rewrite H in IHp, IHs end;
       simpl in *; rewrite ?app_nil_r in *; rewrite ?IHp, ?IHs, <- ?app_assoc; done
     | try (apply Nat.eqb_neq in Hne as Hne'; rewrite Hne');
       rewrite !list_lookup_insert_ne by done; rewrite ?app_nil_r; done ]).
Qed.

(** ** No lost wake-up *)

Lemma wake_inv_init n m : WakeInv (init n m).
Proof. split; simpl; [intros i; by rewrite lookup_nil|done]. Qed.

Lemma wake_stop_step s a e s' :
  stop s = stop_written (owner s) →
  (∀ i, workers s !! i = Some WWait → stop s = true → notifying_all (owner s) = true) →
  step s a = Next e s' →
  ∀ i, workers s' !! i = Some WWait → stop s' = true → notifying_all (owner s') = true.
Proof.
  intros Hs IH Hstep i0.
  destruct a; step_inv Hstep; simpl in *; intros Hi Hst; norm_lookup;
    try (by eapply IH); try (rewrite Hs in *; simpl in *; done); try done.
  - by destruct x.
  - unfold wake_pred in *. rewrite Hst in *. done.
Qed.

Lemma wake_job_step s a e s' :
  (stop s = false → jobs s ≠ [] → workers s ≠ [] →
   (∃ i pc, workers s !! i = Some pc ∧ pc ≠ WWait) ∨
   (∃ c pc, clients s !! c = Some pc ∧ notifying pc = true)) →
  step s a = Next e s' →
  stop s' = false → jobs s' ≠ [] → workers s' ≠ [] →
  (∃ i pc, workers s' !! i = Some pc ∧ pc ≠ WWait) ∨
  (∃ c pc, clients s' !! c = Some pc ∧ notifying pc = true).
Proof.
  intros IH Hstep.
  destruct a; step_inv Hstep; simpl in *; intros Hst Hq Hw; try done;
    try (by apply IH).
  all: try (left; eexists _, _; split;
            [apply list_lookup_insert_eq; by eapply lookup_lt_Some|done]).
  all: try (right; eexists _, _; split;
            [apply list_lookup_insert_eq; by eapply lookup_lt_Some|done]).
  all: try (destruct (IH Hst Hq Hw) as [?|(c0 & pc0 & Hc0 & Hn0)]; [by left|];
            right; exists c0, pc0; split; [|done];
            rewrite list_lookup_insert_ne; [done|]; intros ->;
            rewrite Hc0 in *; by simplify_eq).
  - left. exists (length (workers s)), WLock. split; [|done].
    rewrite lookup_app_r by lia. by rewrite Nat.sub_diag.
  - left. destruct (workers s) as [|pc ws]; [done|].
    exists 0%nat, (wake pc). split; [done|]. by destruct pc.
  - unfold wake_pred in *. rewrite Hst in *. by destruct (jobs s).
  - left. pose proof (notify_one_spec (workers s) pick) as Hspec.
    destruct (notify_target (workers s) pick) as [w|].
    + destruct Hspec as [Hw0 ->]. exists w, WRelock. split; [|done].
      apply list_lookup_insert_eq. by eapply lookup_lt_Some.
    + destruct Hspec as [Hno ->]. destruct (workers s) as [|pc ws] eqn:Hws; [done|].
      exists 0%nat, pc. split; [done|]. intros ->. by apply (Hno 0%nat).
Qed.

Lemma inv2_init n m : Inv2 n m (init n m) [].
Proof.
  split; [apply inv_init|apply worker_seq_inv_init|apply wake_inv_init].
Qed.

Lemma inv2_step n m s tr a e s' :
  Inv2 n m s tr → step s a = Next e s' → Inv2 n m s' (tr ++ [e]).
Proof.
  intros [HI Hseq [Hws Hwj]] Hstep. split.
  - by eapply inv_step.
  - by eapply worker_seq_inv_step.
  - split.
    + eapply wake_stop_step; [|done..]. apply (own_stop _ _ _ (inv_owner _ _ _ _ HI)).
    + by eapply wake_job_step.
Qed.

Lemma run_inv2 n m sched s tr : run n m sched = Done s tr → Inv2 n m s tr.
Proof.
  apply (run_from_invariant (Inv2 n m)); [|apply inv2_init].
  intros. by eapply inv2_step.
Qed.

(** X6: each worker runs its jobs one at a time.  In every reachable state,
    for every worker, the jobs it has begun are the jobs it has removed, in
    the same order, but possibly the last one, and the jobs it has
    completed are the jobs it has begun but possibly the last one; a worker
    with no job in hand has completed every job it removed. *)
Theorem worker_runs_jobs_in_order (n : Z) (m : nat) (sched : list Action) s tr
    (i : nat) :
  run n m sched = Done s tr →
  by_worker i (pops tr) = by_worker i (starts tr) ++ held_at (workers s !! i) ∧
  by_worker i (starts tr) = by_worker i (finishes tr) ++ running_at (workers s !! i) ∧
  (length (by_worker i (pops tr)) ≤ S (length (by_worker i (finishes tr))))%nat ∧
  (∀ pc, workers s !! i = Some pc → has_job pc = false →
         by_worker i (finishes tr) = by_worker i (pops tr)).
Proof.
  intros Hrun. apply run_inv2 in Hrun as [_ Hseq _].
  destruct (Hseq i) as [Hp Hs]. split_and!; try done.
  - rewrite Hp, Hs, !length_app.
    destruct (workers s !! i) as [[]|]; simpl; lia.
  - intros pc Hi Hpc. rewrite Hp, Hs, Hi.
    destruct pc; try done; simpl; by rewrite !app_nil_r.
Qed.

Lemma worker_runs_jobs_in_order_witness :
  by_worker 0 (finishes demo_check_trace) = by_worker 0 (pops demo_check_trace).
Proof.
  destruct (worker_runs_jobs_in_order 1 1 (take 35 demo_sched) demo_check_state
              demo_check_trace 0 eq_refl) as (_ & _ & _ & H).
  apply (H WCheck); reflexivity.
Defined.

(** X7: no lost wake-up for a job.  In every reachable state where the
    queue holds a job and every worker of a non-empty pool is blocked on
    the condition variable, a notification is still to come: some client is
    between its push and its [notify_one] (lines 86-89), or the owner is
    between [stop = true] and its [notify_all] (lines 100-103). *)
Theorem no_lost_wakeup (n : Z) (m : nat) (sched : list Action) s tr :
  run n m sched = Done s tr →
  jobs s ≠ [] → workers s ≠ [] → all_blocked (workers s) →
  (∃ c pc, clients s !! c = Some pc ∧ notifying pc = true) ∨
  notifying_all (owner s) = true.
Proof.
  intros Hrun Hq Hw Hall. apply run_inv2 in Hrun as [_ _ [Hws Hwj]].
  destruct (stop s) eqn:Hst.
  - right. destruct (workers s) as [|pc ws] eqn:Hws'; [done|].
    apply (Hws 0%nat); [|done]. simpl. f_equal. by apply (Hall 0%nat).
  - destruct (Hwj eq_refl Hq Hw) as [(i & pc & Hi & Hne)|?]; [|by left].
    by rewrite (Hall i pc Hi) in Hne.
Qed.

Lemma no_lost_wakeup_witness :
  (∃ c pc, clients pending_state !! c = Some pc ∧ notifying pc = true) ∨
  notifying_all (owner pending_state) = true.
Proof.
  apply (no_lost_wakeup 2 1 pending_sched pending_state pending_trace).
  - reflexivity.
  - discriminate.
  - discriminate.
  - intros [|[|i]] pc Hi; simpl in Hi; by simplify_eq.
Defined.

(** X8: no worker sleeps through shutdown.  In every reachable state where
    the stop flag is set and the owner has executed its [notify_all], no
    worker is blocked on the condition variable; in particular none is
    while the destructor joins. *)
Theorem shutdown_wakes_every_worker (n : Z) (m : nat) (sched : list Action) s tr :
  run n m sched = Done s tr →
  stop s = true → notifying_all (owner s) = false →
  (∀ i, workers s !! i ≠ Some WWait) ∧
  ((∃ k, owner s = ODtorJoin k) ∨ owner s = ODone).
Proof.
  intros Hrun Hst Hno. apply run_inv2 in Hrun as [HI _ [Hws _]]. split.
  - intros i Hi. specialize (Hws i Hi Hst). congruence.
  - pose proof (own_stop _ _ _ (inv_owner _ _ _ _ HI)) as Hs.
    rewrite Hst in Hs. destruct (owner s); try done; eauto.
Qed.

Lemma shutdown_wakes_every_worker_witness :
  stop demo_exit_state = true ∧
  notifying_all (owner demo_exit_state) = false ∧
  (∀ i, workers demo_exit_state !! i ≠ Some WWait) ∧
  ((∃ k, owner demo_exit_state = ODtorJoin k) ∨ owner demo_exit_state = ODone).
Proof.
  split; [reflexivity|]. split; [reflexivity|].
  apply (shutdown_wakes_every_worker 1 1 (take 36 demo_sched) demo_exit_state
           demo_exit_trace); reflexivity.
Defined.

Lemma holder_enabled n m s tr t :
  Inv n m s tr → in_critical s t → enabled s t.
Proof.
  intros HI Ht. unfold enabled. destruct t as [|i|c]; simpl in *.
  - unfold owner_step. destruct (owner s); try done; eauto.
  - destruct Ht as (pc & Hi & Hpc). unfold worker_step. rewrite Hi.
    destruct pc; try done; eauto.
    + destruct (wake_pred s); eauto.
    + destruct (exit_test s); eauto.
    + pose proof (queue_fetch _ (inv_queue _ _ _ _ HI) _ Hi).
      destruct (jobs s); [done|eauto].
  - destruct Ht as (pc & Hc & Hpc). unfold client_step. rewrite Hc.
    destruct pc; try done; eauto.
Qed.

(** X9: shutdown never deadlocks.  In every reachable state the holder of
    the mutex can execute its next statement (a critical section contains
    no blocking statement); and from the entry of the destructor to its
    return, when the mutex is free, the owner can execute its next
    statement or it is joining a worker that can execute its own. *)
Theorem shutdown_never_deadlocks (n : Z) (m : nat) (sched : list Action) s tr :
  run n m sched = Done s tr →
  (∀ t, mu s = Some t → enabled s t) ∧
  (began (owner s) = true → owner s ≠ ODone → mu s = None →
     enabled s TOwner ∨ ∃ k, owner s = ODtorJoin k ∧ enabled s (TWorker k)).
Proof.
  intros Hrun. apply run_inv2 in Hrun as [HI _ [Hws _]]. split.
  - intros t Hmu. eapply holder_enabled; [done|].
    pose proof (inv_holder _ _ _ _ HI) as Hh. unfold HolderInv in Hh.
    rewrite Hmu in Hh. by destruct t.
  - intros Hb Hnd Hmu.
    pose proof (own_stop _ _ _ (inv_owner _ _ _ _ HI)) as Hs.
    unfold enabled. simpl. unfold owner_step, worker_step.
    destruct (owner s) eqn:Ho; try done; rewrite ?Hmu; eauto.
    destruct (workers s !! k) as [pc|] eqn:Hk; [|eauto].
    destruct pc; eauto; right; eexists; (split; [done|]); rewrite Hk, ?Hmu; eauto.
    + pose proof (lock_worker _ (inv_lock _ _ _ _ HI) _ _ Hk eq_refl). congruence.
    + by specialize (Hws k Hk Hs).
    + pose proof (lock_worker _ (inv_lock _ _ _ _ HI) _ _ Hk eq_refl). congruence.
    + pose proof (lock_worker _ (inv_lock _ _ _ _ HI) _ _ Hk eq_refl). congruence.
Qed.

Lemma shutdown_never_deadlocks_witness :
  enabled demo_exit_state TOwner ∨
  ∃ k, owner demo_exit_state = ODtorJoin k ∧ enabled demo_exit_state (TWorker k).
Proof.
  destruct (shutdown_never_deadlocks 1 1 (take 36 demo_sched) demo_exit_state
              demo_exit_trace eq_refl) as [_ H].
  apply H; [reflexivity|discriminate|reflexivity].
Defined.

(** ** [main] *)

Lemma main_step_pool ms a e ms' :
  main_step ms a = MNext e ms' → step (pool ms) (pool_action ms a) = Next e (pool ms').
Proof.
  destruct ms as [pc s]. unfold main_step, main_thread_step, pool_action. simpl.
  intros H. destruct a; [destruct pc|..]; simpl in *; try done;
    repeat match type of H with
           | context [if ?b then _ else _] => destruct b
           end;
    cbn [step];
    match type of H with
    | context [main_lift ?o _] => destruct o; simpl in H; by simplify_eq
    end.
Qed.


Lemma submitted_succ jobId :
  0 ≤ jobId → submitted (jobId + 1) = submitted jobId ++ [(0%nat, main_job jobId)].
Proof.
  intros Hj. unfold submitted, main_job.
  replace (Z.to_nat (jobId + 1)) with (S (Z.to_nat jobId)) by lia.
  by rewrite seq_S, fmap_app.
Qed.

Lemma before_shutdown_begun tr e :
  has_begin tr = true → before_shutdown (tr ++ [e]) = before_shutdown tr.
Proof.
  intros Hb. unfold before_shutdown. rewrite before_snoc.
  unfold has_begin in Hb. by rewrite Hb.
Qed.

Lemma main_inv_init : MainInv main_init [].
Proof. done. Qed.

Lemma worker_step_quiet s a e s' tr :
  step s a = Next e s' → (∃ i, a = AWorker i ∨ a = ASpurious i) →
  owner s' = owner s ∧ clients s' = clients s ∧
  calls (tr ++ [e]) = calls tr ∧ pushes (tr ++ [e]) = pushes tr.
Proof.
  intros Hstep (i & [->| ->]); step_inv Hstep; trace_simpl; done.
Qed.

Lemma owner_step_quiet s e s' tr :
  step s AOwner = Next e s' →
  clients s' = clients s ∧
  calls (tr ++ [e]) = calls tr ∧ pushes (tr ++ [e]) = pushes tr.
Proof. intros Hstep. step_inv Hstep; trace_simpl; done. Qed.

Lemma main_inv_step ms tr a e ms' :
  Inv workersCount 1 (pool ms) tr → MainInv ms tr →
  main_step ms a = MNext e ms' → MainInv ms' (tr ++ [e]).
Proof.
  intros HI HM Hstep. pose proof (main_step_pool _ _ _ _ Hstep) as Hpool.
  pose proof (own_has_begin _ _ _ (inv_owner _ _ _ _ HI)) as Hbegin.
  destruct ms as [pc s], ms' as [pc' s']. simpl in *.
  destruct a as [pick|i|i].
  2,3: (* a worker moves *)
    assert (pc' = pc) as ->
      by (simpl in Hstep; unfold main_lift in Hstep;
          repeat match type of Hstep with
                 | context [match ?o with _ => _ end] => destruct o
                 end; by simplify_eq);
    edestruct (worker_step_quiet s _ e s' tr Hpool) as (Ho & Hc & Hcl & Hpu);
      [simpl; eauto|];
    unfold MainInv in *; simpl in *; rewrite Ho, Hc, Hcl, Hpu;
    destruct pc; try done;
    rewrite before_shutdown_begun; try done;
    rewrite Hbegin; by destruct HM as (-> & _).
  (* the main thread moves *)
  pose proof HI as [_ _ _ [_ _ _ Hctor _ _] _ _ _ _ _ Hlen].
  unfold CtorInv in Hctor.
  unfold MainInv in *. simpl in *. unfold main_thread_step in Hstep. simpl in *.
  destruct pc as [|jobId|jobId| |]; simpl in *; try done.
  - (* constructor *)
    rewrite Hpool in Hstep. simpl in Hstep. simplify_eq.
    destruct (owner s) eqn:Ho; try done.
    destruct Hctor as (_ & _ & _ & _ & _ & Hidle & Hcalls & Hpushes).
    destruct (owner_step_quiet _ _ _ tr Hpool) as (Hc & Hcl & Hpu).
    unfold owner_step in Hpool. rewrite Ho in Hpool.
    destruct (i <? numOfWorkers); simplify_eq; simpl; [done|].
    rewrite Hcl, Hpu, Hcalls, Hpushes. split_and!; try done.
    destruct (lookup_lt_is_Some_2 (clients s) 0%nat) as [pc Hpc]; [lia|].
    by rewrite Hpc, (Hidle _ _ Hpc).
  - (* loop test *)
    destruct HM as (Ho & Hc & Hj & Hcalls & Hpushes).
    destruct (jobId <? 10) eqn:Hlt.
    + apply Z.ltb_lt in Hlt. cbn [step] in Hpool.
      rewrite Hpool in Hstep. simpl in Hstep. simplify_eq.
      unfold call_step in Hpool. rewrite Hc, Ho in Hpool.
      simpl in Hpool. simplify_eq. simpl. trace_simpl.
      split_and!; try done; try lia.
      * by rewrite Hcalls, submitted_succ by lia.
      * eexists. split; [apply list_lookup_insert_eq; by eapply lookup_lt_Some|].
        split; [by left|done].
    + apply Z.ltb_ge in Hlt. assert (jobId = 10) as -> by lia.
      destruct (owner_step_quiet _ _ _ tr Hpool) as (Hc' & Hcl & Hpu).
      cbn [step] in Hpool.
      rewrite Hpool in Hstep. simpl in Hstep. simplify_eq.
      unfold owner_step in Hpool. rewrite Ho in Hpool.
      simplify_eq. simpl. rewrite Hpu. split_and!; try done.
      unfold before_shutdown. rewrite before_snoc. fold (has_begin tr).
      rewrite Hbegin, Ho. simpl. done.
  - (* inside enqueue *)
    destruct HM as (Ho & Hj & Hcalls & pc & Hc & Hpc & Hpushes).
    pose proof (lookup_lt_Some _ _ _ Hc) as Hlt.
    rewrite Hpool in Hstep. simpl in Hstep.
    unfold client_step in Hpool. rewrite Hc in Hpool.
    destruct Hpc as [->|[->|[->| ->]]]; simpl in *;
      [destruct (mu s); [done|]|..]; simplify_eq; simpl in *;
      rewrite list_lookup_insert_eq by done; simpl; trace_simpl;
      (split_and!; try done; try lia).
    + eexists. split; [done|]. split; [by right; left|done].
    + eexists. split; [done|]. split; [by right; right; left|]. simpl.
      by rewrite Hpushes, submitted_succ by lia.
    + eexists. split; [done|]. split; [by right; right; right|done].
  - (* destructor *)
    destruct HM as (Hb & Hnd & Hc & Hpu & Hbs).
    destruct (owner_step_quiet _ _ _ tr Hpool) as (Hc' & _ & Hpu').
    rewrite Hpool in Hstep. simpl in Hstep. simplify_eq.
    rewrite Hb in Hbegin. rewrite before_shutdown_begun by done.
    rewrite Hc', Hpu'.
    unfold owner_step in Hpool.
    destruct (owner s) eqn:Ho; try done; break_match Hpool; simplify_eq; simpl;
      done.
Qed.

Lemma main_run_from_inv sched : ∀ ms tr ms' tr',
  Inv2 workersCount 1 (pool ms) tr → MainInv ms tr →
  main_run_from sched ms tr = MDone ms' tr' →
  Inv2 workersCount 1 (pool ms') tr' ∧ MainInv ms' tr'.
Proof.
  induction sched as [|a sched IH]; intros ms tr ms' tr' HI HM Hrun; simpl in Hrun.
  - by simplify_eq.
  - destruct (main_step ms a) as [e ms1| |] eqn:Hstep; try done.
    eapply IH; [| |exact Hrun].
    + eapply inv2_step; [done|]. by eapply main_step_pool.
    + eapply main_inv_step; [|done..]. by destruct HI.
Qed.

Lemma main_run_inv sched ms tr :
  main_run sched = MDone ms tr →
  Inv2 workersCount 1 (pool ms) tr ∧ MainInv ms tr.
Proof. apply main_run_from_inv; [apply inv2_init|apply main_inv_init]. Qed.

Lemma main_step_undefined ms a :
  main_step ms a = MUndefined → step (pool ms) (pool_action ms a) = Undefined.
Proof.
  destruct ms as [pc s]. unfold main_step, main_thread_step, pool_action. simpl.
  intros H. destruct a; [destruct pc|..]; simpl in *; try done;
    repeat match type of H with
           | context [if ?b then _ else _] => destruct b
           end;
    cbn [step];
    match type of H with
    | context [main_lift ?o _] => by destruct o
    end.
Qed.

Lemma main_run_from_no_crash sched : ∀ ms tr,
  Inv2 workersCount 1 (pool ms) tr → MainInv ms tr →
  main_run_from sched ms tr ≠ MCrash.
Proof.
  induction sched as [|a sched IH]; intros ms tr HI HM; simpl; [done|].
  destruct (main_step ms a) as [e ms1| |] eqn:Hstep; [|done|].
  - apply IH.
    + eapply inv2_step; [done|]. by eapply main_step_pool.
    + eapply main_inv_step; [|done..]. by destruct HI.
  - apply main_step_undefined in Hstep. destruct HI as [HI _ _].
    by eapply step_defined in Hstep.
Qed.

Lemma snd_submitted jobId : snd <$> submitted jobId = seq 0 (Z.to_nat jobId).
Proof.
  unfold submitted. rewrite <- list_fmap_compose. simpl. apply list_fmap_id.
Qed.

Lemma main_pushes ms tr :
  Inv workersCount 1 (pool ms) tr → MainInv ms tr →
  ∃ k, (k ≤ 10)%nat ∧ snd <$> pushes tr = seq 0 k.
Proof.
  intros HI HM. unfold MainInv in HM.
  destruct (mpc ms) as [|jobId|jobId| |].
  - exists 0%nat. split; [lia|].
    pose proof (own_ctor _ _ _ (inv_owner _ _ _ _ HI)) as Hc. unfold CtorInv in Hc.
    destruct (owner (pool ms)); try done.
    destruct Hc as (_ & _ & _ & _ & _ & _ & _ & ->). done.
  - destruct HM as (_ & _ & ? & _ & ->). rewrite snd_submitted.
    exists (Z.to_nat jobId). split; [lia|done].
  - destruct HM as (_ & ? & _ & pc & _ & _ & ->). rewrite snd_submitted.
    eexists. split; [|done]. destruct (notifying pc); lia.
  - destruct HM as (_ & _ & _ & -> & _). rewrite snd_submitted. by exists 10%nat.
  - destruct HM as (_ & _ & -> & _). rewrite snd_submitted. by exists 10%nat.
Qed.

(** X10: [main] executes every job exactly once.  In every interleaving of
    the main thread and the two workers, when [main] has returned the jobs
    0 to 9 were removed from the queue in this order, each was begun and
    completed exactly once, by the worker that removed it, the queue is
    empty and both workers have returned. *)
Theorem main_executes_every_job_once (sched : list MainAction) ms tr :
  main_run sched = MDone ms tr → mpc ms = MExit →
  snd <$> pops tr = seq 0 10 ∧
  starts tr ≡ₚ pops tr ∧ finishes tr ≡ₚ pops tr ∧
  snd <$> finishes tr ≡ₚ seq 0 10 ∧
  jobs (pool ms) = [] ∧
  all_stopped (workers (pool ms)) ∧ length (workers (pool ms)) = 2%nat.
Proof.
  intros Hrun Hexit. apply main_run_inv in Hrun as [[HI _ _] HM].
  unfold MainInv in HM. rewrite Hexit in HM.
  destruct HM as (Ho & _ & Hpu & Hbs).
  pose proof HI as [_ _ _ [_ _ _ Hc Hj _] [Hf _ _ _] _ _ Hsh _ _].
  unfold CtorInv in Hc. rewrite Ho in Hc, Hj.
  assert (all_stopped (workers (pool ms))) as Hall.
  { intros i pc Hi. by apply (Hj i). }
  assert (workers (pool ms) ≠ []) as Hne.
  { intros Hnil. by rewrite Hnil in Hc. }
  destruct (drained _ _ _ _ HI Hne Hall) as (Hpre & Hsp & Hfp).
  assert (snd <$> pushes tr = seq 0 10) as Hpu'.
  { by rewrite Hpu, snd_submitted. }
  assert (snd <$> pops tr = seq 0 10) as Hpops.
  { assert ((snd <$> pushes tr) `prefix_of` (snd <$> pops tr)) as H1.
    { etrans; [|exact Hpre]. rewrite Hpu, <- Hbs.
      by apply fmap_prefix_of, omap_prefix. }
    assert ((snd <$> pops tr) `prefix_of` (snd <$> pushes tr)) as H2.
    { rewrite <- Hf. by apply prefix_app_r. }
    rewrite <- Hpu'.
    apply (anti_symm prefix); done. }
  split_and!; try done.
  - rewrite <- Hpops. by apply fmap_Permutation.
  - rewrite Hpu', Hpops in Hf.
    rewrite <- (app_nil_r (seq 0 10)) in Hf at 2.
    by apply app_inv_head in Hf.
Qed.

Lemma main_executes_every_job_once_witness :
  snd <$> finishes main_program_trace ≡ₚ seq 0 10.
Proof.
  assert (main_run main_program_sched
          = MDone main_program_state main_program_trace) as Hrun
    by (vm_compute; reflexivity).
  destruct (main_executes_every_job_once main_program_sched main_program_state
              main_program_trace Hrun eq_refl) as (_ & _ & _ & H & _).
  exact H.
Defined.

(** X11: [main] is safe and dequeues in order.  No interleaving of [main]
    reaches undefined behaviour; in every state of every interleaving the
    jobs pushed so far are 0, 1, ..., k-1 for some k <= 10, the jobs
    removed so far followed by the queue are these jobs in this order, and
    the jobs begun so far are among them, each at most once. *)
Theorem main_dequeues_in_order (sched : list MainAction) :
  main_run sched ≠ MCrash ∧
  ∀ ms tr, main_run sched = MDone ms tr →
    ∃ k, (k ≤ 10)%nat ∧
         snd <$> pushes tr = seq 0 k ∧
         (snd <$> pops tr) ++ jobs (pool ms) = seq 0 k ∧
         snd <$> pops tr = seq 0 (length (pops tr)) ∧
         (snd <$> starts tr) ⊆+ seq 0 k.
Proof.
  split; [apply main_run_from_no_crash; [apply inv2_init|apply main_inv_init]|].
  intros ms tr Hrun. apply main_run_inv in Hrun as [[HI _ _] HM].
  destruct (main_pushes _ _ HI HM) as (k & Hk & Hpu). exists k.
  pose proof HI as [_ _ _ _ [Hf Hp _ _] _ _ _ _ _].
  rewrite Hpu in Hf. split_and!; try done.
  - assert (length (pops tr) ≤ k)%nat as Hle.
    { apply (f_equal length) in Hf.
      rewrite length_app, length_fmap, length_seq in Hf. lia. }
    apply (f_equal (take (length (pops tr)))) in Hf.
    rewrite take_app_length' in Hf by (by rewrite length_fmap).
    rewrite take_seq in Hf.
    by replace (length (pops tr) `min` k)%nat with (length (pops tr)) in Hf by lia.
  - rewrite <- Hf. apply submseteq_inserts_r, fmap_submseteq.
    rewrite Hp. by apply submseteq_inserts_r.
Qed.

Lemma main_dequeues_in_order_witness :
  ∃ k, (k ≤ 10)%nat ∧ snd <$> pushes main_program_trace = seq 0 k.
Proof.
  assert (main_run main_program_sched
          = MDone main_program_state main_program_trace) as Hrun
    by (vm_compute; reflexivity).
  destruct (main_dequeues_in_order main_program_sched) as [_ H].
  destruct (H _ _ Hrun) as (k & Hk & Hpu & _).
  exists k. split; [exact Hk|exact Hpu].
Defined.

(** ** Shutdown can always complete *)

Lemma sum_list_with_insert {A} (f : A → nat) l i x y :
  l !! i = Some x →
  (sum_list_with f (<[i:=y]> l) + f x = sum_list_with f l + f y)%nat.
Proof.
  revert i. induction l as [|z l IH]; intros [|i] Hi; simpl in *; simplify_eq.
  - lia.
  - specialize (IH _ Hi). lia.
Qed.

Lemma sum_weight_notify_all ws :
  (sum_list_with worker_weight (notify_all ws)
   ≤ sum_list_with worker_weight ws + 4 * length ws)%nat.
Proof.
  induction ws as [|pc ws IH]; simpl; [lia|].
  destruct pc; simpl; lia.
Qed.

Lemma potential_worker s s' i pc pc' :
  workers s !! i = Some pc → workers s' = <[i:=pc']> (workers s) →
  owner s' = owner s → clients s' = clients s →
  (potential s' + worker_weight pc + 8 * length (jobs s)
   = potential s + worker_weight pc' + 8 * length (jobs s'))%nat.
Proof.
  intros Hi Hw Ho Hc. unfold potential. rewrite Hw, Ho, Hc, length_insert.
  pose proof (sum_list_with_insert worker_weight (workers s) i pc pc' Hi). lia.
Qed.

Lemma potential_client s s' c pc pc' :
  clients s !! c = Some pc → clients s' = <[c:=pc']> (clients s) →
  owner s' = owner s → workers s' = workers s →
  (potential s' + client_weight pc + 8 * length (jobs s)
   = potential s + client_weight pc' + 8 * length (jobs s'))%nat.
Proof.
  intros Hi Hc Ho Hw. unfold potential. rewrite Hw, Ho, Hc.
  pose proof (sum_list_with_insert client_weight (clients s) c pc pc' Hi). lia.
Qed.

Lemma potential_owner s s' :
  workers s' = workers s → clients s' = clients s → jobs s' = jobs s →
  (potential s' + owner_weight (owner s) (length (workers s))
   = potential s + owner_weight (owner s') (length (workers s)))%nat.
Proof. intros Hw Hc Hj. unfold potential. rewrite Hw, Hc, Hj. lia. Qed.

Lemma drive_step n m s tr :
  Inv2 n m s tr → destroyed (owner s) = false →
  ∃ e s', step s (next_action s) = Next e s' ∧ (potential s' < potential s)%nat.
Proof.
  intros [HI _ [Hws _]] Hnd.
  pose proof (inv_holder _ _ _ _ HI) as Hh. unfold HolderInv in Hh.
  pose proof (own_stop _ _ _ (inv_owner _ _ _ _ HI)) as Hs.
  pose proof (lock_worker _ (inv_lock _ _ _ _ HI)) as Hlw.
  assert (∀ s', workers s' = workers s → clients s' = clients s →
            jobs s' = jobs s →
            (owner_weight (owner s') (length (workers s))
             < owner_weight (owner s) (length (workers s)))%nat →
            (potential s' < potential s)%nat) as Howner.
  { intros s' Hw Hc Hj Hlt. pose proof (potential_owner s s' Hw Hc Hj). lia. }
  assert (∀ s' i pc pc', workers s !! i = Some pc →
            workers s' = <[i:=pc']> (workers s) → owner s' = owner s →
            clients s' = clients s →
            (worker_weight pc' + 8 * length (jobs s')
             < worker_weight pc + 8 * length (jobs s))%nat →
            (potential s' < potential s)%nat) as Hworker.
  { intros s' i pc pc' Hi Hw Ho Hc Hlt.
    pose proof (potential_worker s s' i pc pc' Hi Hw Ho Hc). lia. }
  assert (∀ s' c pc pc', clients s !! c = Some pc →
            clients s' = <[c:=pc']> (clients s) → owner s' = owner s →
            workers s' = workers s →
            (client_weight pc' + 8 * length (jobs s')
             < client_weight pc + 8 * length (jobs s))%nat →
            (potential s' < potential s)%nat) as Hclient.
  { intros s' c pc pc' Hi Hc Ho Hw Hlt.
    pose proof (potential_client s s' c pc pc' Hi Hc Ho Hw). lia. }
  unfold next_action. destruct (mu s) as [[|i|c]|] eqn:Hmu; cbn [thread_action step].
  - (* the owner holds the mutex *)
    unfold owner_step. destruct (owner s) eqn:Ho; try done; eexists _, _;
      (split; [done|]); apply Howner; try done; simpl; rewrite ?Ho; simpl; lia.
  - (* worker i holds the mutex *)
    destruct Hh as (pc & Hi & Hpc). unfold worker_step. rewrite Hi.
    destruct pc; try done.
    + destruct (wake_pred s); eexists _, _; (split; [done|]);
        eapply Hworker; try done; simpl; lia.
    + destruct (exit_test s); eexists _, _; (split; [done|]);
        eapply Hworker; try done; simpl; lia.
    + pose proof (queue_fetch _ (inv_queue _ _ _ _ HI) _ Hi).
      destruct (jobs s) as [|job rest] eqn:Hq; [done|]. eexists _, _.
      split; [done|]. eapply Hworker; try done; simpl; lia.
    + eexists _, _. split; [done|]. eapply Hworker; try done; simpl; lia.
  - (* client c holds the mutex *)
    destruct Hh as (pc & Hc & Hpc). unfold client_step. rewrite Hc.
    destruct pc; try done; eexists _, _; (split; [done|]);
      eapply Hclient; try done; simpl; rewrite ?length_app; simpl; lia.
  - (* the mutex is free *)
    destruct (owner s) eqn:Ho; try done.
    + (* constructor *)
      cbn [step]. unfold owner_step. rewrite Ho.
      destruct (i <? numOfWorkers) eqn:Hlt; eexists _, _; (split; [done|]).
      * apply Z.ltb_lt in Hlt. unfold potential. simpl.
        rewrite ?Ho, length_app, sum_list_with_app. simpl.
        replace (Z.to_nat (numOfWorkers - i))
          with (S (Z.to_nat (numOfWorkers - (i + 1)))) by lia.
        lia.
      * apply Howner; try done. simpl. rewrite ?Ho. simpl. lia.
    + cbn [step]. unfold owner_step. rewrite Ho. eexists _, _. split; [done|].
      apply Howner; try done. simpl. rewrite ?Ho. simpl. lia.
    + cbn [step]. unfold owner_step. rewrite Ho, Hmu. eexists _, _. split; [done|].
      apply Howner; try done. simpl. rewrite ?Ho. simpl. lia.
    + cbn [step]. unfold owner_step. rewrite Ho. eexists _, _. split; [done|].
      apply Howner; try done. simpl. rewrite ?Ho. simpl. lia.
    + cbn [step]. unfold owner_step. rewrite Ho. eexists _, _. split; [done|].
      apply Howner; try done. simpl. rewrite ?Ho. simpl. lia.
    + (* notify_all *)
      cbn [step]. unfold owner_step. rewrite Ho. eexists _, _. split; [done|].
      unfold potential. simpl. rewrite ?Ho, length_notify_all. simpl.
      pose proof (sum_weight_notify_all (workers s)). lia.
    + (* join *)
      destruct (workers s !! k) as [pc|] eqn:Hk.
      * pose proof (lookup_lt_Some _ _ _ Hk) as Hlen.
        destruct pc; cbn [step]; unfold owner_step, worker_step;
          rewrite ?Ho, ?Hk, ?Hmu;
          try (pose proof (Hlw _ _ Hk eq_refl); congruence);
          try (eexists _, _; split; [done|];
               eapply Hworker; try done; simpl; lia).
        -- specialize (Hws k Hk Hs). done.
        -- eexists _, _. split; [done|].
           apply Howner; try done. simpl. rewrite ?Ho. simpl. lia.
      * cbn [step]. unfold owner_step. rewrite Ho, Hk. eexists _, _.
        split; [done|]. apply Howner; try done. simpl. rewrite ?Ho. simpl. lia.
Qed.

Lemma potential_done s : potential s = 0%nat → destroyed (owner s) = true.
Proof. unfold potential. destruct (owner s); simpl; try done; lia. Qed.

Lemma drive_completes n m fuel : ∀ s tr,
  Inv2 n m s tr → (potential s ≤ fuel)%nat →
  ∃ s' tr', run_from (drive fuel s) s tr = Done s' tr' ∧ owner s' = ODone.
Proof.
  induction fuel as [|fuel IH]; intros s tr HI Hfuel.
  - exists s, tr. split; [done|].
    assert (destroyed (owner s) = true) as Hd by (apply potential_done; lia).
    by destruct (owner s).
  - simpl. destruct (destroyed (owner s)) eqn:Hd.
    + exists s, tr. split; [done|]. by destruct (owner s).
    + destruct (drive_step _ _ _ _ HI Hd) as (e & s1 & Hstep & Hlt).
      rewrite Hstep. rewrite run_from_cons, Hstep.
      apply IH; [by eapply inv2_step|lia].
Qed.

Lemma drive_quiet fuel : ∀ s a,
  a ∈ drive fuel s → ∀ c job, a ≠ ACall c job ∧ a ≠ ASpurious c.
Proof.
  induction fuel as [|fuel IH]; intros s a; simpl; [by intros ?%elem_of_nil|].
  destruct (destroyed (owner s)); [by intros ?%elem_of_nil|].
  destruct (step s (next_action s)); try (by intros ?%elem_of_nil).
  intros [->|Hin]%elem_of_cons; [|by eapply IH].
  intros c job. unfold next_action.
  destruct (mu s) as [[]|]; simpl; try done.
  destruct (owner s); try done. destruct (workers s !! k) as [[]|]; done.
Qed.

(** X12: shutdown can always complete.  From every reachable state, the
    schedule that runs the holder of the mutex, else the owner, else the
    worker the owner is joining, reaches the return of the destructor
    within [potential s] transitions; it contains no new call of [enqueue]
    and no spurious wake-up.  (A job is taken to return once it is
    called.) *)
Theorem shutdown_can_complete (n : Z) (m : nat) (sched : list Action) s tr :
  run n m sched = Done s tr →
  (∃ s' tr', run_from (drive (potential s) s) s tr = Done s' tr' ∧
             owner s' = ODone) ∧
  (length (drive (potential s) s) ≤ potential s)%nat ∧
  (∀ a, a ∈ drive (potential s) s → ∀ c job, a ≠ ACall c job ∧ a ≠ ASpurious c).
Proof.
  intros Hrun. apply run_inv2 in Hrun as HI. split_and!.
  - by eapply drive_completes.
  - generalize (potential s). clear. intros fuel. revert s.
    induction fuel as [|fuel IH]; intros s; simpl; [lia|].
    destruct (destroyed (owner s)); simpl; [lia|].
    destruct (step s (next_action s)); simpl; try lia.
    specialize (IH s0). lia.
  - apply drive_quiet.
Qed.

Lemma shutdown_can_complete_witness :
  ∃ s' tr', run_from (drive (potential demo_job_state) demo_job_state)
              demo_job_state demo_job_trace = Done s' tr' ∧
            owner s' = ODone.
Proof.
  destruct (shutdown_can_complete 1 1 (take 25 demo_sched) demo_job_state
              demo_job_trace eq_refl) as [H _].
  exact H.
Defined.
